(** * Task Manager: a shallow embedding of [main.py] and its store properties

    The program keeps one Python list of task dictionaries
    ([TaskManager.tasks]), rewrites [tasks.json] after every mutation and
    reports every outcome with [print].  The embedding keeps the three
    observable parts of a manager: the task list, the trace of calls to
    [save_tasks] and the trace of printed messages. *)

From Stdlib Require Import ZArith String Ascii Floats Uint63 DecimalString.
From stdpp Require Import base list strings.

Open Scope Z_scope.

(** ** Data model *)

(** A task dictionary: the four keys written by [add_task].  Python's [int]
    is unbounded, hence [Z]; [str] is modelled by [string]. *)
Module Task.
Record t := mk {
  id : Z;
  description : string;
  completed : bool;
  created_at : string
}.

(** [task["completed"] = b] *)
Definition set_completed (b : bool) (x : t) : t :=
  mk (id x) (description x) b (created_at x).

(** [task["description"] = d] *)
Definition set_description (d : string) (x : t) : t :=
  mk (id x) d (completed x) (created_at x).
End Task.

(** The lines a method can print, one constructor per [print] call that
    reports an outcome (banners made of ["="] are left out).  The arguments
    are the values interpolated by the f-string. *)
Inductive Msg :=
| ErrorSaving                                   (* Error saving tasks: ... *)
| TaskAdded (description : string)              (* Task added: ... *)
| AlreadyCompleted (task_id : Z)                (* Task [n] is already completed! *)
| MarkedCompleted (task_id : Z)                 (* Task [n] marked as completed! *)
| NotFound (task_id : Z)                        (* Task [n] not found. *)
| Deleted (task_id : Z) (description : string)  (* Task [n] deleted: ... *)
| RemovedCompleted (removed : Z)                (* Removed n completed task(s). *)
| NoCompletedToRemove                           (* No completed tasks to remove. *)
| Updated (task_id : Z) (old_description new_description : string)
| NoStatistics                                  (* No tasks to display statistics for. *)
| Statistics (total completed pending : Z) (completion_rate : string)
| NoMatches (keyword : string)                  (* No tasks found matching '...'. *)
| SearchResults (keyword : string) (matching_tasks : list Task.t).

(** The manager object together with what it did to the outside world:
    [saved] lists, oldest first, the task lists handed to [json.dump] by
    [save_tasks]; [out] lists the printed messages, oldest first. *)
Record TaskManager := {
  tasks : list Task.t;
  saved : list (list Task.t);
  out : list Msg
}.

Definition with_tasks (l : list Task.t) (s : TaskManager) : TaskManager :=
  {| tasks := l; saved := saved s; out := out s |}.

Definition print (m : Msg) (s : TaskManager) : TaskManager :=
  {| tasks := tasks s; saved := saved s; out := out s ++ [m] |}.

(** The manager built by [__init__] when [tasks.json] does not exist. *)
Definition init : TaskManager := {| tasks := []; saved := []; out := [] |}.

(** ** Strings: [str.lower] and [in] *)

(** [str.lower] on ASCII text: [A]..[Z] go to [a]..[z], every other
    character stays.  A [string] holds one character per code point below
    128; the statements that depend on the case mapping of a text require
    [is_ascii_text] of it, and [lower_points] below gives [str.lower] on
    code points beyond ASCII. *)
Definition is_upper (c : ascii) : bool :=
  ((65 <=? nat_of_ascii c) && (nat_of_ascii c <=? 90))%nat.

Definition lower_char (c : ascii) : ascii :=
  if is_upper c then ascii_of_nat (nat_of_ascii c + 32) else c.

Fixpoint lower (s : string) : string :=
  match s with
  | EmptyString => EmptyString
  | String c s' => String (lower_char c) (lower s')
  end.

(** [needle in hay] on strings: [needle] starts at some position of [hay]. *)
Fixpoint str_in (needle hay : string) : bool :=
  String.prefix needle hay ||
  match hay with
  | EmptyString => false
  | String _ hay' => str_in needle hay'
  end.

(** ** Numbers: [sum], true division and the [.1f] format *)

(** [sum(1 for t in tasks if t["completed"])] *)
Fixpoint sum_completed (l : list Task.t) : Z :=
  match l with
  | [] => 0
  | t :: l' => (if Task.completed t then 1 else 0) + sum_completed l'
  end.

(** An [int] operand of [/] or [*] converted to binary64.  A list length is
    below [2^53], where the conversion is exact. *)
Definition float_of_int (n : Z) : float := PrimFloat.of_uint63 (Uint63.of_Z n).

(** [(completed / total * 100) if total > 0 else 0] *)
Definition completion_rate (completed total : Z) : float :=
  if 0 <? total
  then PrimFloat.mul (PrimFloat.div (float_of_int completed) (float_of_int total))
                     (float_of_int 100)
  else float_of_int 0.

(** The number of tenths nearest to [m * 2^e], ties to the even one: the
    digits chosen by the correctly rounded [.1f] conversion. *)
Definition round_tenths (m : positive) (e : Z) : Z :=
  if 0 <=? e then 10 * (Z.pos m * 2 ^ e)
  else
    let num := 10 * Z.pos m in
    let den := 2 ^ (- e) in
    let q := num / den in
    let r := num mod den in
    match 2 * r ?= den with
    | Lt => q
    | Gt => q + 1
    | Eq => if Z.even q then q else q + 1
    end.

(** Tenths shown for a finite non-negative binary64 value; [None] for the
    values a rate never takes (negative, infinite, NaN). *)
Definition tenths_of_float (x : float) : option Z :=
  match Prim2SF x with
  | S754_zero _ => Some 0
  | S754_finite false m e => Some (round_tenths m e)
  | _ => None
  end.

Definition string_of_tenths (n : Z) : string :=
  (NilZero.string_of_int (Z.to_int (n / 10)) ++ "." ++
   NilZero.string_of_int (Z.to_int (n mod 10)))%string.

(** [f"{x:.1f}"] for the values above; the other values print as ["nan"]
    here and are never produced by [completion_rate]. *)
Definition format_1f (x : float) : string :=
  match tenths_of_float x with
  | Some n => string_of_tenths n
  | None => "nan"%string
  end.

(** ** The methods of [TaskManager] *)

Section Store.

(** The file system: [io_error k] tells whether the call of [save_tasks]
    that follows [k] earlier calls raises [IOError]. *)
Variable io_error : nat → bool.

(** [save_tasks]: dump the whole list; an [IOError] is caught and
    reported, never raised. *)
Definition save_tasks (s : TaskManager) : TaskManager :=
  let s' := {| tasks := tasks s; saved := saved s ++ [tasks s]; out := out s |} in
  if io_error (length (saved s)) then print ErrorSaving s' else s'.

(** [add_task]; [now] is the formatted value of [datetime.now()]. *)
Definition add_task (description now : string) (s : TaskManager) : TaskManager :=
  let task := Task.mk (Z.of_nat (length (tasks s)) + 1) description false now in
  print (TaskAdded description)
    (save_tasks (with_tasks (tasks s ++ [task]) s)).

(** The loops of [complete_task], [delete_task] and [edit_task] stop at
    the first task whose id equals [task_id]: [list_find] returns its
    index and the task, or [None] when the loop runs to its end. *)
Definition find_task (task_id : Z) (l : list Task.t) : option (nat * Task.t) :=
  list_find (λ t, Task.id t = task_id) l.

Definition complete_task (task_id : Z) (s : TaskManager) : TaskManager :=
  match find_task task_id (tasks s) with
  | Some (i, task) =>
      if Task.completed task
      then print (AlreadyCompleted task_id) s
      else print (MarkedCompleted task_id)
             (save_tasks (with_tasks (<[i := Task.set_completed true task]> (tasks s)) s))
  | None => print (NotFound task_id) s
  end.

Definition delete_task (task_id : Z) (s : TaskManager) : TaskManager :=
  match find_task task_id (tasks s) with
  | Some (i, task) =>
      let description := Task.description task in
      print (Deleted task_id description)
        (save_tasks (with_tasks (delete i (tasks s)) s))
  | None => print (NotFound task_id) s
  end.

Definition clear_completed (s : TaskManager) : TaskManager :=
  let initial_count := Z.of_nat (length (tasks s)) in
  let s1 := with_tasks (filter (λ t, Task.completed t = false) (tasks s)) s in
  let removed := initial_count - Z.of_nat (length (tasks s1)) in
  if 0 <? removed
  then print (RemovedCompleted removed) (save_tasks s1)
  else print NoCompletedToRemove s1.

Definition edit_task (task_id : Z) (new_description : string)
    (s : TaskManager) : TaskManager :=
  match find_task task_id (tasks s) with
  | Some (i, task) =>
      let old_description := Task.description task in
      print (Updated task_id old_description new_description)
        (save_tasks
           (with_tasks (<[i := Task.set_description new_description task]> (tasks s)) s))
  | None => print (NotFound task_id) s
  end.

Definition show_statistics (s : TaskManager) : TaskManager :=
  match tasks s with
  | [] => print NoStatistics s
  | _ =>
      let total := Z.of_nat (length (tasks s)) in
      let completed := sum_completed (tasks s) in
      let pending := total - completed in
      let rate := completion_rate completed total in
      print (Statistics total completed pending (format_1f rate)) s
  end.

(** The list comprehension of [search_tasks]. *)
Definition matching_tasks (keyword : string) (l : list Task.t) : list Task.t :=
  let keyword_lower := lower keyword in
  filter (λ task, str_in keyword_lower (lower (Task.description task)) = true) l.

Definition search_tasks (keyword : string) (s : TaskManager) : TaskManager :=
  match matching_tasks keyword (tasks s) with
  | [] => print (NoMatches keyword) s
  | found => print (SearchResults keyword found) s
  end.

(** One call made by the menu loop of [main]. *)
Inductive Op :=
| Add (description now : string)
| Complete (task_id : Z)
| Delete (task_id : Z)
| ClearCompleted
| Edit (task_id : Z) (new_description : string)
| ShowStatistics
| Search (keyword : string).

Definition step (s : TaskManager) (o : Op) : TaskManager :=
  match o with
  | Add d now => add_task d now s
  | Complete n => complete_task n s
  | Delete n => delete_task n s
  | ClearCompleted => clear_completed s
  | Edit n d => edit_task n d s
  | ShowStatistics => show_statistics s
  | Search k => search_tasks k s
  end.

Definition run (ops : list Op) (s : TaskManager) : TaskManager :=
  fold_left step ops s.

End Store.

(** ** Vocabulary of the statements *)

(** No task of [l] carries the id [task_id]. *)
Definition absent (task_id : Z) (l : list Task.t) : Prop :=
  Forall (λ u, Task.id u ≠ task_id) l.

(** The ids of a task list, in list order. *)
Definition ids (l : list Task.t) : list Z := Task.id <$> l.

(** A run of [add_task] calls, one per (description, timestamp) pair. *)
Definition add_ops (adds : list (string * string)) : list Op :=
  (λ p, Add p.1 p.2) <$> adds.

(** The calls that take tasks out of the list. *)
Definition is_removal (o : Op) : bool :=
  match o with
  | Delete _ | ClearCompleted => true
  | _ => false
  end.

(** The ids are [1, 2, ..., len(tasks)], in this order. *)
Definition numbered (s : TaskManager) : Prop :=
  ids (tasks s) = seqZ 1 (Z.of_nat (length (tasks s))).

(** [k] holds exactly the elements of [l] that satisfy [P], each as often
    as in [l] and in the order of [l]. *)
Inductive selects {A} (P : A → Prop) : list A → list A → Prop :=
| selects_nil : selects P [] []
| selects_keep x l k : P x → selects P l k → selects P (x :: l) (x :: k)
| selects_drop x l k : ¬ P x → selects P l k → selects P (x :: l) k.

(** The number of completed tasks. *)
Definition count_completed (l : list Task.t) : nat :=
  length (filter (λ t, Task.completed t = true) l).

(** Case-insensitive containment, stated without [lower]: [a] is an
    upper-case letter and [b] the matching lower-case one. *)
Definition upper_lower_pair (a b : ascii) : Prop :=
  (65 ≤ nat_of_ascii a ≤ 90)%nat ∧ nat_of_ascii b = (nat_of_ascii a + 32)%nat.

Definition same_letter (a b : ascii) : Prop :=
  a = b ∨ upper_lower_pair a b ∨ upper_lower_pair b a.

Inductive same_ignoring_case : string → string → Prop :=
| sic_nil : same_ignoring_case EmptyString EmptyString
| sic_cons a b u v :
    same_letter a b → same_ignoring_case u v →
    same_ignoring_case (String a u) (String b v).

(** Some stretch of [description] spells [keyword] up to letter case. *)
Definition contains_ignoring_case (keyword description : string) : Prop :=
  ∃ pre w post,
    description = (pre ++ w ++ post)%string ∧ same_ignoring_case w keyword.

(** [n] tenths are a nearest one-decimal value of [100 * c / t]:
    [|n / 10 - 100 * c / t| <= 1 / 20], in integers. *)
Definition nearest_tenth (c t n : Z) : Prop :=
  2 * Z.abs (n * t - 1000 * c) ≤ t.

Definition nearest_tenth_shown (c t : Z) : bool :=
  match tenths_of_float (completion_rate c t) with
  | Some n => 2 * Z.abs (n * t - 1000 * c) <=? t
  | None => false
  end.

(** [nearest_tenth_shown] on every store of at most [bound] tasks. *)
Definition nearest_tenth_upto (bound : nat) : bool :=
  forallb (λ t, forallb (λ c, nearest_tenth_shown (Z.of_nat c) (Z.of_nat t))
                  (seq 0 (S t)))
          (seq 1 bound).

(** A file system on which every write succeeds. *)
Definition io_ok : nat → bool := λ _, false.

(** A value of [datetime.now().strftime("%Y-%m-%d %H:%M:%S")]. *)
Definition t0 : string := "2024-01-01 09:00:00".

(** A session in which the first of two tasks is deleted before a third
    one is added. *)
Definition reuse_session : list Op :=
  [Add "a" t0; Add "b" t0; Delete 1; Add "c" t0].

(** The scenario of the specification's section 8. *)
Definition scenario : list Op :=
  [Add "Buy milk" t0; Add "Pay rent" t0; Complete 1; Complete 1;
   Search "pay"; ClearCompleted; ShowStatistics].

(** ** [list_tasks] *)

(** The lines printed by [list_tasks] (banners left out). *)
Inductive ListLine :=
| NoTasksFound                                          (* No tasks found. ... *)
| TaskLine (done : bool) (task_id : Z) (description : string)
                                                        (* {status} [{id}] {description} *)
| CreatedLine (created_at : string)                     (* Created: ... *)
| Progress (completed_count total_count : Z).           (* Progress: c/t completed *)

(** The body of the [for] loop: the task's line, followed by its creation
    time when the task is completed. *)
Definition task_lines (task : Task.t) : list ListLine :=
  TaskLine (Task.completed task) (Task.id task) (Task.description task) ::
  (if Task.completed task then [CreatedLine (Task.created_at task)] else []).

(** [list_tasks] reads the manager and prints; it returns the lines. *)
Definition list_tasks (s : TaskManager) : list ListLine :=
  match tasks s with
  | [] => [NoTasksFound]
  | _ =>
      let completed_count := sum_completed (tasks s) in
      let total_count := Z.of_nat (length (tasks s)) in
      flat_map task_lines (tasks s) ++ [Progress completed_count total_count]
  end.

(** The tasks shown by a listing, read back from its task lines. *)
Definition shown (lines : list ListLine) : list (bool * Z * string) :=
  flat_map (λ line, match line with
                    | TaskLine b n d => [(b, n, d)]
                    | _ => []
                    end) lines.

(** The creation times shown by a listing. *)
Definition created_shown (lines : list ListLine) : list string :=
  flat_map (λ line, match line with
                    | CreatedLine c => [c]
                    | _ => []
                    end) lines.

(** ** The menu loop of [main] *)

(** What a call of [input] meets: a typed line, or Ctrl-C.  The end of the
    event list is the end of standard input. *)
Inductive Event := Line (text : string) | Interrupt.

(** The lines printed by [main] itself and by [list_tasks] (menus, prompts
    and banners left out). *)
Inductive ShellMsg :=
| Listed (lines : list ListLine)
| EmptyDescription            (* Task description cannot be empty! *)
| InvalidTaskId               (* Invalid task ID. Please enter a number. *)
| DeletionCancelled           (* Deletion cancelled. *)
| OperationCancelled          (* Operation cancelled. *)
| EmptyKeyword                (* Search keyword cannot be empty! *)
| InvalidChoice               (* Invalid choice. ... *)
| Goodbye                     (* Thank you for using Task Manager! Goodbye! *)
| Exiting                     (* Exiting Task Manager. Goodbye! *)
| ErrorOccurred.              (* An error occurred: ... *)

(** The manager held by [main], with the lines of [ShellMsg] printed so
    far; the lines printed by the other methods are in [out (manager _)]. *)
Record Shell := {
  manager : TaskManager;
  screen : list ShellMsg
}.

(** Whether the [while True] loop goes on or has met [break]. *)
Inductive Status := Running | Stopped.

Definition say (m : ShellMsg) (sh : Shell) : Shell :=
  {| manager := manager sh; screen := screen sh ++ [m] |}.

(** A method call [manager.f(...)]. *)
Definition call (f : TaskManager → TaskManager) (sh : Shell) : Shell :=
  {| manager := f (manager sh); screen := screen sh |}.

(** [manager.list_tasks()] *)
Definition show_list (sh : Shell) : Shell :=
  say (Listed (list_tasks (manager sh))) sh.

(** One call of [input] inside the [try] of the loop body.  At the end of
    input [input] raises [EOFError], which [except Exception] reports
    before the loop goes on; Ctrl-C raises [KeyboardInterrupt], whose
    handler says goodbye and breaks. *)
Definition reading (sh : Shell) (evs : list Event)
    (k : string → list Event → Shell * list Event * Status)
    : Shell * list Event * Status :=
  match evs with
  | [] => (say ErrorOccurred sh, [], Running)
  | Interrupt :: rest => (say Exiting sh, rest, Stopped)
  | Line text :: rest => k text rest
  end.

Section Main.

Variable io_error : nat → bool.

(** The library functions [str.strip] and [int] ([None] for [ValueError]),
    and the clock read by [add_task], told by the number of earlier
    writes. *)
Variable strip : string → string.
Variable parse_int : string → option Z.
Variable clock : nat → string.

(** One pass through the body of [while True]. *)
Definition iteration (sh : Shell) (evs : list Event)
    : Shell * list Event * Status :=
  reading sh evs (λ line rest,
    let choice := strip line in
    if (choice =? "1")%string then
      reading sh rest (λ line rest,
        let description := strip line in
        if (description =? "")%string
        then (say EmptyDescription sh, rest, Running)
        else (call (add_task io_error description
                      (clock (length (saved (manager sh))))) sh,
              rest, Running))
    else if (choice =? "2")%string then
      (show_list sh, rest, Running)
    else if (choice =? "3")%string then
      let sh := show_list sh in
      reading sh rest (λ line rest,
        match parse_int (strip line) with
        | Some task_id =>
            (call (complete_task io_error task_id) sh, rest, Running)
        | None => (say InvalidTaskId sh, rest, Running)
        end)
    else if (choice =? "4")%string then
      let sh := show_list sh in
      reading sh rest (λ line rest,
        match parse_int (strip line) with
        | Some task_id =>
            reading sh rest (λ line rest,
              let confirm := lower (strip line) in
              if (confirm =? "y")%string
              then (call (delete_task io_error task_id) sh, rest, Running)
              else (say DeletionCancelled sh, rest, Running))
        | None => (say InvalidTaskId sh, rest, Running)
        end)
    else if (choice =? "5")%string then
      reading sh rest (λ line rest,
        let confirm := lower (strip line) in
        if (confirm =? "y")%string
        then (call (clear_completed io_error) sh, rest, Running)
        else (say OperationCancelled sh, rest, Running))
    else if (choice =? "6")%string then
      let sh := show_list sh in
      reading sh rest (λ line rest,
        match parse_int (strip line) with
        | Some task_id =>
            reading sh rest (λ line rest,
              let new_description := strip line in
              if (new_description =? "")%string
              then (say EmptyDescription sh, rest, Running)
              else (call (edit_task io_error task_id new_description) sh,
                    rest, Running))
        | None => (say InvalidTaskId sh, rest, Running)
        end)
    else if (choice =? "7")%string then
      (call show_statistics sh, rest, Running)
    else if (choice =? "8")%string then
      reading sh rest (λ line rest,
        let keyword := strip line in
        if (keyword =? "")%string
        then (say EmptyKeyword sh, rest, Running)
        else (call (search_tasks keyword) sh, rest, Running))
    else if (choice =? "9")%string then
      (say Goodbye sh, rest, Stopped)
    else
      (say InvalidChoice sh, rest, Running)).

(** The loop, run for at most [fuel] passes. *)
Fixpoint main_loop (fuel : nat) (sh : Shell) (evs : list Event)
    : Shell * list Event * Status :=
  match fuel with
  | O => (sh, evs, Running)
  | S fuel' =>
      match iteration sh evs with
      | (sh', evs', Stopped) => (sh', evs', Stopped)
      | (sh', evs', Running) => main_loop fuel' sh' evs'
      end
  end.

End Main.

(** ** Vocabulary of the further properties *)

(** The number of [add_task] calls in a run. *)
Fixpoint count_adds (ops : list Op) : nat :=
  match ops with
  | [] => 0
  | Add _ _ :: ops' => S (count_adds ops')
  | _ :: ops' => count_adds ops'
  end.

(** Every id is at least the 1-based position of its task. *)
Definition ids_above_position (l : list Task.t) : Prop :=
  ∀ k t, l !! k = Some t → Z.of_nat k + 1 ≤ Task.id t.

(** No task has an empty description. *)
Definition described (l : list Task.t) : Prop :=
  Forall (λ t, Task.description t ≠ EmptyString) l.

(** The calls the menu loop makes: descriptions and keywords it passes on
    are not empty. *)
Definition from_menu (o : Op) : Prop :=
  match o with
  | Add d _ => d ≠ EmptyString
  | Edit _ d => d ≠ EmptyString
  | Search k => k ≠ EmptyString
  | _ => True
  end.

(** Instances of the library functions for the examples: [strip_spaces]
    removes blanks at both ends, [decimal] reads an unsigned run of
    digits. *)
Fixpoint strip_left (s : string) : string :=
  match s with
  | String " " s' => strip_left s'
  | _ => s
  end.

Definition strip_spaces (s : string) : string :=
  String.rev (strip_left (String.rev (strip_left s))).

Fixpoint decimal_digits (acc : Z) (s : string) : option Z :=
  match s with
  | EmptyString => Some acc
  | String c s' =>
      let n := Z.of_nat (nat_of_ascii c) in
      if (48 <=? n) && (n <=? 57)
      then decimal_digits (10 * acc + (n - 48)) s'
      else None
  end.

Definition decimal (s : string) : option Z :=
  match s with
  | EmptyString => None
  | _ => decimal_digits 0 s
  end.

Definition clock0 : nat → string := λ _, t0.

Definition shell0 : Shell := {| manager := init; screen := [] |}.

(** ** Vocabulary of the revised statements *)

(** A session without [delete_task] in which [clear_completed] removes a
    task before another one is added. *)
Definition clear_session : list Op :=
  [Add "a" t0; Add "b" t0; Complete 1; ClearCompleted; Add "c" t0].

(** Text made of ASCII characters only (code points below 128), where
    [lower] is [str.lower]. *)
Fixpoint is_ascii_text (s : string) : bool :=
  match s with
  | EmptyString => true
  | String c s' => (nat_of_ascii c <? 128)%nat && is_ascii_text s'
  end.

Definition ascii_tasks (l : list Task.t) : Prop :=
  Forall (λ t, is_ascii_text (Task.description t) = true) l.

(** [n] tenths are the value [m * 2^e] rounded to one decimal place: no
    other number of tenths is nearer, and when two are equally near [n] is
    the even one.  The value is [num / den] with the integers below. *)
Definition rounded_to_tenths (m : positive) (e : Z) (n : Z) : Prop :=
  let num := 10 * Z.pos m * 2 ^ Z.max 0 e in
  let den := 2 ^ Z.max 0 (- e) in
  2 * Z.abs (n * den - num) ≤ den ∧
  (2 * Z.abs (n * den - num) = den → Z.even n = true).

(** [text] shows the binary64 value [x] rounded to one decimal place.
    Nothing is said of negative, infinite or NaN values. *)
Definition shows_rounded (x : float) (text : string) : Prop :=
  match Prim2SF x with
  | S754_zero _ => text = "0.0"%string
  | S754_finite false m e =>
      ∃ n, text = string_of_tenths n ∧ rounded_to_tenths m e n
  | _ => True
  end.

(** *** [str.lower] beyond ASCII

    A Python string as the list of its code points, with [str.lower] on
    strings made of ASCII characters and the Greek letters
    U+0391..U+03A9 and U+03B1..U+03C9.  On these code points the tables
    below are Python's: the cased characters, the case-ignorable ones
    (apostrophe, full stop, colon, circumflex, grave accent) and the
    lower-case mapping; capital sigma U+03A3 goes to the final sigma
    U+03C2 when a cased character comes before it and none after it
    (case-ignorable characters skipped), and to U+03C3 otherwise. *)
Definition is_cased_point (c : N) : bool :=
  ((65 <=? c) && (c <=? 90) || (97 <=? c) && (c <=? 122) ||
   (913 <=? c) && (c <=? 937) && negb (c =? 930) ||
   (945 <=? c) && (c <=? 969))%N.

Definition is_case_ignorable_point (c : N) : bool :=
  ((c =? 39) || (c =? 46) || (c =? 58) || (c =? 94) || (c =? 96))%N.

Definition lower_point (c : N) : N :=
  (if (65 <=? c) && (c <=? 90) then c + 32
   else if (913 <=? c) && (c <=? 937) && negb (c =? 930) then c + 32
   else c)%N.

Fixpoint skip_case_ignorable (s : list N) : list N :=
  match s with
  | c :: s' => if is_case_ignorable_point c then skip_case_ignorable s' else s
  | [] => []
  end.

(** [before] holds the characters before the sigma, nearest first. *)
Definition final_sigma (before after : list N) : bool :=
  match skip_case_ignorable before with
  | c :: _ =>
      is_cased_point c &&
      match skip_case_ignorable after with
      | d :: _ => negb (is_cased_point d)
      | [] => true
      end
  | [] => false
  end.

Fixpoint lower_points_from (before s : list N) : list N :=
  match s with
  | [] => []
  | c :: s' =>
      (if (c =? 931)%N
       then if final_sigma before s' then 962%N else 963%N
       else lower_point c) :: lower_points_from (c :: before) s'
  end.

Definition lower_points (s : list N) : list N := lower_points_from [] s.

Fixpoint points_prefix (needle hay : list N) : bool :=
  match needle, hay with
  | [], _ => true
  | _ :: _, [] => false
  | a :: needle', b :: hay' => (a =? b)%N && points_prefix needle' hay'
  end.

(** [needle in hay] on code points. *)
Fixpoint points_in (needle hay : list N) : bool :=
  points_prefix needle hay ||
  match hay with
  | [] => false
  | _ :: hay' => points_in needle hay'
  end.


(** The code points of a string of the byte model. *)
Fixpoint points_of (s : string) : list N :=
  match s with
  | EmptyString => []
  | String c s' => N_of_ascii c :: points_of s'
  end.


(** ** Basic facts about the embedding *)

Section StoreFacts.

Variable io_error : nat → bool.

Lemma tasks_save_tasks s : tasks (save_tasks io_error s) = tasks s.
Proof. unfold save_tasks. by destruct (io_error _). Qed.

Lemma saved_save_tasks s :
  saved (save_tasks io_error s) = saved s ++ [tasks s].
Proof. unfold save_tasks. by destruct (io_error _). Qed.

Lemma out_save_tasks s :
  out (save_tasks io_error s) = out s ∨
  out (save_tasks io_error s) = out s ++ [ErrorSaving].
Proof. unfold save_tasks. destruct (io_error _); auto. Qed.

Lemma last_out_print m s : last (out (print m s)) = Some m.
Proof. apply last_snoc. Qed.

(** [find_task] fails exactly when the id is absent. *)
Lemma find_task_None task_id l :
  find_task task_id l = None ↔ absent task_id l.
Proof. apply list_find_None. Qed.

(** [find_task] succeeds exactly at the first task carrying the id: the
    tasks before it do not carry it. *)
Lemma find_task_Some task_id l i t :
  find_task task_id l = Some (i, t) ↔
  ∃ l1 l2, l = l1 ++ t :: l2 ∧ i = length l1 ∧
           Task.id t = task_id ∧ absent task_id l1.
Proof.
  unfold find_task, absent. rewrite list_find_Some. split.
  - intros (Hi & Hid & Hbefore).
    exists (take i l), (drop (S i) l).
    assert (i < length l)%nat by eauto using lookup_lt_Some.
    split_and!.
    + by rewrite take_drop_middle.
    + rewrite length_take. lia.
    + done.
    + apply Forall_forall. intros u Hu.
      apply list_elem_of_lookup in Hu as [j Hj].
      pose proof (lookup_lt_Some _ _ _ Hj) as Hlt.
      rewrite length_take in Hlt.
      rewrite lookup_take_lt in Hj by lia.
      eapply Hbefore; [done | lia].
  - intros (l1 & l2 & -> & -> & Hid & Habs). split_and!.
    + by rewrite list_lookup_middle.
    + done.
    + intros j u Hj Hlt. rewrite lookup_app_l in Hj by done.
      rewrite Forall_forall in Habs. apply Habs.
      eapply list_elem_of_lookup_2; eauto.
Qed.

Lemma find_task_middle task_id l1 t l2 :
  Task.id t = task_id → absent task_id l1 →
  find_task task_id (l1 ++ t :: l2) = Some (length l1, t).
Proof. intros. apply find_task_Some. eauto 10. Qed.

(** Either the id is absent, or the list splits at its first carrier. *)
Lemma find_task_cases task_id l :
  (find_task task_id l = None ∧ absent task_id l) ∨
  (∃ l1 t l2, find_task task_id l = Some (length l1, t) ∧
              l = l1 ++ t :: l2 ∧ Task.id t = task_id ∧ absent task_id l1).
Proof.
  destruct (find_task task_id l) as [[i t]|] eqn:E.
  - right. pose proof E as E'.
    apply find_task_Some in E as (l1 & l2 & -> & -> & ? & ?).
    exists l1, t, l2. auto.
  - left. split; [done | by apply find_task_None].
Qed.

Lemma insert_middle (l1 l2 : list Task.t) t t' :
  <[length l1 := t']> (l1 ++ t :: l2) = l1 ++ t' :: l2.
Proof.
  replace (length l1) with (length l1 + 0)%nat by lia.
  by rewrite insert_app_r.
Qed.

End StoreFacts.

(** ** Adding tasks *)

Section Adding.

Variable io_error : nat → bool.

Lemma tasks_add_task d now s :
  tasks (add_task io_error d now s) =
  tasks s ++ [Task.mk (Z.of_nat (length (tasks s)) + 1) d false now].
Proof. unfold add_task. cbn. by rewrite tasks_save_tasks. Qed.

Lemma saved_add_task d now s :
  saved (add_task io_error d now s) =
  saved s ++ [tasks (add_task io_error d now s)].
Proof.
  rewrite tasks_add_task. unfold add_task. cbn.
  by rewrite saved_save_tasks.
Qed.

Lemma run_cons o ops s :
  run io_error (o :: ops) s = run io_error ops (step io_error s o).
Proof. reflexivity. Qed.

Lemma run_app ops1 ops2 s :
  run io_error (ops1 ++ ops2) s = run io_error ops2 (run io_error ops1 s).
Proof. apply fold_left_app. Qed.

(** From any manager, [n] calls of [add_task] append the ids
    [len + 1, ..., len + n]. *)
Lemma ids_run_add_ops adds s :
  ids (tasks (run io_error (add_ops adds) s)) =
    ids (tasks s) ++ seqZ (Z.of_nat (length (tasks s)) + 1) (Z.of_nat (length adds)) ∧
  length (tasks (run io_error (add_ops adds) s)) = (length (tasks s) + length adds)%nat.
Proof.
  revert s. induction adds as [|[d now] adds IH]; intros s.
  - cbn. split; [by rewrite app_nil_r | lia].
  - unfold add_ops. rewrite fmap_cons. fold (add_ops adds).
    rewrite run_cons. cbn [step fst snd].
    destruct (IH (add_task io_error d now s)) as [IHids IHlen].
    rewrite IHids, IHlen, tasks_add_task, length_app. cbn [length].
    split; [|lia].
    unfold ids. rewrite fmap_app, <- app_assoc. cbn [fmap list_fmap app]. f_equal.
    rewrite (seqZ_cons (Z.of_nat (length (tasks s)) + 1)) by lia.
    cbn [Task.id]. f_equal. f_equal; lia.
Qed.

End Adding.

(** ** The three loops that look a task up by id *)

Section Lookup.

Variable io_error : nat → bool.

Lemma complete_task_absent n s :
  absent n (tasks s) → complete_task io_error n s = print (NotFound n) s.
Proof.
  intros H%find_task_None. unfold complete_task. by rewrite H.
Qed.

Lemma complete_task_first n s l1 t l2 :
  tasks s = l1 ++ t :: l2 → Task.id t = n → absent n l1 →
  complete_task io_error n s =
    if Task.completed t
    then print (AlreadyCompleted n) s
    else print (MarkedCompleted n)
           (save_tasks io_error
              (with_tasks (l1 ++ Task.set_completed true t :: l2) s)).
Proof.
  intros Hs Hid Habs. unfold complete_task.
  rewrite Hs, (find_task_middle n l1 t l2 Hid Habs).
  by rewrite insert_middle.
Qed.

Lemma delete_task_absent n s :
  absent n (tasks s) → delete_task io_error n s = print (NotFound n) s.
Proof.
  intros H%find_task_None. unfold delete_task. by rewrite H.
Qed.

Lemma delete_task_first n s l1 t l2 :
  tasks s = l1 ++ t :: l2 → Task.id t = n → absent n l1 →
  delete_task io_error n s =
    print (Deleted n (Task.description t))
      (save_tasks io_error (with_tasks (l1 ++ l2) s)).
Proof.
  intros Hs Hid Habs. unfold delete_task.
  rewrite Hs, (find_task_middle n l1 t l2 Hid Habs).
  by rewrite delete_middle.
Qed.

Lemma edit_task_absent n d s :
  absent n (tasks s) → edit_task io_error n d s = print (NotFound n) s.
Proof.
  intros H%find_task_None. unfold edit_task. by rewrite H.
Qed.

Lemma edit_task_first n d s l1 t l2 :
  tasks s = l1 ++ t :: l2 → Task.id t = n → absent n l1 →
  edit_task io_error n d s =
    print (Updated n (Task.description t) d)
      (save_tasks io_error
         (with_tasks (l1 ++ Task.set_description d t :: l2) s)).
Proof.
  intros Hs Hid Habs. unfold edit_task.
  rewrite Hs, (find_task_middle n l1 t l2 Hid Habs).
  by rewrite insert_middle.
Qed.

(** Completing and editing keep every id in its place. *)
Lemma ids_complete_task n s :
  ids (tasks (complete_task io_error n s)) = ids (tasks s).
Proof.
  destruct (find_task_cases n (tasks s))
    as [[_ Habs] | (l1 & t & l2 & _ & Hs & Hid & Habs)].
  - by rewrite complete_task_absent.
  - rewrite (complete_task_first n s l1 t l2) by done.
    destruct (Task.completed t); [done|].
    cbn [print tasks]. rewrite tasks_save_tasks. cbn [with_tasks tasks].
    rewrite Hs. unfold ids. by rewrite !fmap_app.
Qed.

Lemma ids_edit_task n d s :
  ids (tasks (edit_task io_error n d s)) = ids (tasks s).
Proof.
  destruct (find_task_cases n (tasks s))
    as [[_ Habs] | (l1 & t & l2 & _ & Hs & Hid & Habs)].
  - by rewrite edit_task_absent.
  - rewrite (edit_task_first n d s l1 t l2) by done.
    cbn [print tasks]. rewrite tasks_save_tasks. cbn [with_tasks tasks].
    rewrite Hs. unfold ids. by rewrite !fmap_app.
Qed.

Lemma tasks_show_statistics s : tasks (show_statistics s) = tasks s.
Proof. unfold show_statistics. by destruct (tasks s) eqn:E. Qed.

Lemma tasks_search_tasks k s : tasks (search_tasks k s) = tasks s.
Proof. unfold search_tasks. by destruct (matching_tasks k (tasks s)) eqn:E. Qed.

(** The numbering [1..len] survives every call that removes nothing. *)
Lemma numbered_step s o :
  is_removal o = false → numbered s → numbered (step io_error s o).
Proof.
  unfold numbered. intros Hrem Hnum.
  destruct o as [d now|n|n| |n d| |k]; try discriminate; cbn [step].
  - rewrite tasks_add_task, length_app. cbn [length].
    unfold ids in *. rewrite fmap_app, Hnum. cbn [fmap list_fmap Task.id].
    replace (Z.of_nat (length (tasks s) + 1)) with (Z.of_nat (length (tasks s)) + 1) by lia.
    rewrite seqZ_app by lia. f_equal.
    rewrite (seqZ_cons _ 1) by lia. cbn. f_equal. lia.
  - pose proof (ids_complete_task n s) as Hids.
    rewrite Hids. rewrite <- (length_fmap Task.id (tasks (complete_task _ _ _))).
    fold (ids (tasks (complete_task io_error n s))).
    rewrite Hids. unfold ids at 2. by rewrite length_fmap.
  - pose proof (ids_edit_task n d s) as Hids.
    rewrite Hids. rewrite <- (length_fmap Task.id (tasks (edit_task _ _ _ _))).
    fold (ids (tasks (edit_task io_error n d s))).
    rewrite Hids. unfold ids at 2. by rewrite length_fmap.
  - by rewrite tasks_show_statistics.
  - by rewrite tasks_search_tasks.
Qed.

Lemma numbered_run ops s :
  Forall (λ o, is_removal o = false) ops → numbered s →
  numbered (run io_error ops s).
Proof.
  intros Hops. revert s.
  induction Hops as [|o ops Ho _ IH]; intros s Hs; [done|].
  rewrite run_cons. apply IH. by apply numbered_step.
Qed.

Lemma numbered_NoDup s : numbered s → NoDup (ids (tasks s)).
Proof. unfold numbered. intros ->. apply NoDup_seqZ. Qed.

End Lookup.

(** ** Deleting twice *)

Section DeleteTwice.

Variable io_error : nat → bool.

Lemma absent_app n l1 l2 : absent n (l1 ++ l2) ↔ absent n l1 ∧ absent n l2.
Proof. apply Forall_app. Qed.

Lemma absent_not_in_ids n l : absent n l ↔ n ∉ ids l.
Proof.
  unfold absent, ids. rewrite Forall_forall, list_elem_of_fmap. split.
  - intros H (u & -> & Hu). by apply (H u).
  - intros H u Hu Hid. apply H. eauto.
Qed.

(** While ids are unique, a second [delete_task] of the same id finds
    nothing. *)
Lemma delete_task_twice_unique n s :
  NoDup (ids (tasks s)) →
  delete_task io_error n (delete_task io_error n s) =
    print (NotFound n) (delete_task io_error n s).
Proof.
  intros Hnd. apply delete_task_absent.
  destruct (find_task_cases n (tasks s))
    as [[_ Habs] | (l1 & t & l2 & _ & Hs & Hid & Habs)].
  - by rewrite delete_task_absent.
  - rewrite (delete_task_first io_error n s l1 t l2) by done.
    cbn [print tasks]. rewrite tasks_save_tasks. cbn [with_tasks tasks].
    apply absent_app. split; [done|].
    rewrite Hs in Hnd. unfold ids in Hnd. rewrite fmap_app, fmap_cons in Hnd.
    apply NoDup_app in Hnd as (_ & _ & Hnd). apply NoDup_cons in Hnd as [Hnotin _].
    apply absent_not_in_ids. unfold ids. by rewrite <- Hid.
Qed.

End DeleteTwice.

(** ** Selections *)

Section Selects.

Context {A : Type} (P : A → Prop) `{!∀ x, Decision (P x)}.

Lemma selects_filter l : selects P l (filter P l).
Proof.
  induction l as [|x l IH]; [constructor|].
  destruct (decide (P x)) as [HP|HP].
  - rewrite filter_cons_True by done. by constructor.
  - rewrite filter_cons_False by done. by constructor.
Qed.

Lemma selects_unique l k : selects P l k → k = filter P l.
Proof.
  induction 1 as [|x l k HP _ IH|x l k HP _ IH].
  - done.
  - rewrite filter_cons_True by done. by f_equal.
  - by rewrite filter_cons_False.
Qed.

Lemma selects_sublist l k : selects P l k → k `sublist_of` l.
Proof. induction 1; by constructor. Qed.

Lemma selects_elem_of l k x : selects P l k → x ∈ k ↔ x ∈ l ∧ P x.
Proof.
  intros ->%selects_unique. rewrite list_elem_of_filter. tauto.
Qed.

End Selects.


(** ** Strings *)

Section Strings.

Open Scope string_scope.

Lemma nat_of_lower_char c :
  nat_of_ascii (lower_char c) =
  if is_upper c then (nat_of_ascii c + 32)%nat else nat_of_ascii c.
Proof.
  unfold lower_char. destruct (is_upper c) eqn:E; [|done].
  apply nat_ascii_embedding. unfold is_upper in E.
  apply andb_true_iff in E as [_ E%Nat.leb_le]. lia.
Qed.

Lemma is_upper_spec c :
  is_upper c = true ↔ (65 ≤ nat_of_ascii c ≤ 90)%nat.
Proof.
  unfold is_upper. rewrite andb_true_iff, !Nat.leb_le. tauto.
Qed.

Lemma nat_of_ascii_inj a b : nat_of_ascii a = nat_of_ascii b → a = b.
Proof.
  intros E. rewrite <- (ascii_nat_embedding a), <- (ascii_nat_embedding b).
  by rewrite E.
Qed.

(** Two characters are the same letter exactly when [lower_char] sends
    them to one character. *)
Lemma same_letter_lower_char a b :
  same_letter a b ↔ lower_char a = lower_char b.
Proof.
  unfold same_letter, upper_lower_pair. split.
  - intros H. apply nat_of_ascii_inj. rewrite !nat_of_lower_char.
    destruct (is_upper a) eqn:Ea, (is_upper b) eqn:Eb;
      try apply is_upper_spec in Ea; try apply is_upper_spec in Eb;
      try (apply not_true_iff_false in Ea; rewrite is_upper_spec in Ea);
      try (apply not_true_iff_false in Eb; rewrite is_upper_spec in Eb);
      destruct H as [->|[[? ?]|[? ?]]]; lia.
  - intros H. apply (f_equal nat_of_ascii) in H. rewrite !nat_of_lower_char in H.
    destruct (is_upper a) eqn:Ea, (is_upper b) eqn:Eb;
      try apply is_upper_spec in Ea; try apply is_upper_spec in Eb.
    + left. apply nat_of_ascii_inj. lia.
    + right. left. split; [done | lia].
    + right. right. split; [done | lia].
    + left. by apply nat_of_ascii_inj.
Qed.

Lemma same_ignoring_case_lower u v :
  same_ignoring_case u v ↔ lower u = lower v.
Proof.
  split.
  - induction 1 as [|a b u v Hab _ IH]; [done|].
    cbn. f_equal; [by apply same_letter_lower_char | done].
  - revert v. induction u as [|a u IH]; intros [|b v] H; try discriminate.
    + constructor.
    + cbn in H. injection H as Hab Huv.
      constructor; [by apply same_letter_lower_char | by apply IH].
Qed.

Lemma lower_append u v : lower (u ++ v) = lower u ++ lower v.
Proof. induction u as [|a u IH]; simpl; [done | by rewrite IH]. Qed.

Lemma lower_append_inv d x y :
  lower d = x ++ y → ∃ u v, d = u ++ v ∧ lower u = x ∧ lower v = y.
Proof.
  revert d. induction x as [|c x IH]; intros d H.
  - exists "", d. done.
  - destruct d as [|a d]; [discriminate|]. cbn in H. injection H as Hc Hd.
    destruct (IH d Hd) as (u & v & -> & Hu & Hv).
    exists (String a u), v. cbn. by rewrite Hc, Hu.
Qed.

Lemma prefix_spec n h :
  String.prefix n h = true ↔ ∃ post, h = n ++ post.
Proof.
  revert n. induction h as [|b h IH]; intros [|a n]; cbn.
  - split; [intros _; by exists "" | done].
  - split; [done | by intros [? ?]].
  - split; [intros _; by exists (String b h) | done].
  - destruct (Ascii.ascii_dec a b) as [->|Hne].
    + rewrite IH. split; intros [post E]; exists post; [by rewrite E | by injection E].
    + split; [done | intros [post E]; by injection E].
Qed.

(** [str_in] is containment of a contiguous stretch. *)
Lemma str_in_spec n h :
  str_in n h = true ↔ ∃ pre post, h = pre ++ n ++ post.
Proof.
  induction h as [|b h IH].
  - cbn [str_in]. rewrite orb_false_r, prefix_spec. split.
    + intros [post E]. by exists "", post.
    + intros (pre & post & E). destruct pre; [by exists post | discriminate].
  - cbn [str_in]. rewrite orb_true_iff, prefix_spec, IH. split.
    + intros [[post E] | (pre & post & E)].
      * by exists "", post.
      * exists (String b pre), post. cbn. by rewrite E.
    + intros (pre & post & E). destruct pre as [|c pre].
      * left. by exists post.
      * right. cbn in E. injection E as _ E. by exists pre, post.
Qed.

(** The test made by [search_tasks] decides case-insensitive
    containment. *)
Lemma str_in_lower_spec keyword description :
  str_in (lower keyword) (lower description) = true ↔
  contains_ignoring_case keyword description.
Proof.
  rewrite str_in_spec. unfold contains_ignoring_case. split.
  - intros (pre' & post' & E).
    apply lower_append_inv in E as (pre & rest & -> & _ & E).
    apply lower_append_inv in E as (w & post & -> & Hw & _).
    exists pre, w, post. split; [done|]. by apply same_ignoring_case_lower.
  - intros (pre & w & post & -> & Hw%same_ignoring_case_lower).
    exists (lower pre), (lower post). by rewrite !lower_append, Hw.
Qed.

End Strings.

(** ** Counting completed tasks *)

Section Counting.

Lemma sum_completed_count l :
  sum_completed l = Z.of_nat (count_completed l).
Proof.
  unfold count_completed. induction l as [|t l IH]; [done|].
  cbn [sum_completed]. rewrite IH.
  destruct (Task.completed t) eqn:E.
  - rewrite filter_cons_True by done. cbn [length]. lia.
  - rewrite filter_cons_False by congruence. lia.
Qed.

Lemma length_pending_completed l :
  length l =
  (length (filter (λ t, Task.completed t = false) l) + count_completed l)%nat.
Proof.
  unfold count_completed. induction l as [|t l IH]; [done|].
  destruct (Task.completed t) eqn:E.
  - rewrite (filter_cons_True (λ t, Task.completed t = true)) by done.
    rewrite filter_cons_False by congruence. cbn [length]. lia.
  - rewrite (filter_cons_False (λ t, Task.completed t = true)) by congruence.
    rewrite filter_cons_True by done. cbn [length]. lia.
Qed.

Lemma filter_pending_all l :
  count_completed l = 0%nat →
  filter (λ t, Task.completed t = false) l = l.
Proof.
  unfold count_completed. induction l as [|t l IH]; [done|].
  destruct (Task.completed t) eqn:E.
  - rewrite filter_cons_True by done. discriminate.
  - rewrite (filter_cons_False (λ t, Task.completed t = true)) by congruence.
    intros H. rewrite filter_cons_True by done. f_equal. by apply IH.
Qed.

Lemma with_tasks_same s : with_tasks (tasks s) s = s.
Proof. by destruct s. Qed.

Lemma nearest_tenth_upto_spec bound (c t : nat) :
  nearest_tenth_upto bound = true →
  (1 ≤ t ≤ bound)%nat → (c ≤ t)%nat →
  ∃ n, tenths_of_float (completion_rate (Z.of_nat c) (Z.of_nat t)) = Some n ∧
       nearest_tenth (Z.of_nat c) (Z.of_nat t) n.
Proof.
  unfold nearest_tenth_upto. intros H Ht Hc.
  rewrite forallb_forall in H. specialize (H t).
  rewrite forallb_forall in H.
  assert (Hin : nearest_tenth_shown (Z.of_nat c) (Z.of_nat t) = true).
  { apply H; apply in_seq; lia. }
  unfold nearest_tenth_shown in Hin.
  destruct (tenths_of_float _) as [n|]; [|discriminate].
  exists n. split; [done|]. unfold nearest_tenth. by apply Z.leb_le.
Qed.

(** For up to 150 tasks the shown rate is a nearest one-decimal value of
    the exact quotient. *)
Lemma nearest_tenth_upto_150 : nearest_tenth_upto 150 = true.
Proof. vm_compute. reflexivity. Qed.

Lemma completion_rate_nearest_tenth (c t : nat) :
  (1 ≤ t ≤ 150)%nat → (c ≤ t)%nat →
  ∃ n, tenths_of_float (completion_rate (Z.of_nat c) (Z.of_nat t)) = Some n ∧
       nearest_tenth (Z.of_nat c) (Z.of_nat t) n.
Proof. apply nearest_tenth_upto_spec, nearest_tenth_upto_150. Qed.

End Counting.

(** ** Sessions *)

(** Without [delete_task] and [clear_completed] the ids stay [1..len],
    hence pairwise distinct, whatever else is called in between. *)
Lemma ids_run_without_removal (io_error : nat → bool) (ops : list Op) :
  Forall (λ o, is_removal o = false) ops →
  numbered (run io_error ops init) ∧
  NoDup (ids (tasks (run io_error ops init))).
Proof.
  intros Hops.
  assert (H : numbered (run io_error ops init))
    by (apply numbered_run; [done | reflexivity]).
  split; [done | by apply numbered_NoDup].
Qed.

Example scenario_out :
  out (run io_ok scenario init) =
  [TaskAdded "Buy milk"; TaskAdded "Pay rent"; MarkedCompleted 1;
   AlreadyCompleted 1;
   SearchResults "pay" [Task.mk 2 "Pay rent" false t0];
   RemovedCompleted 1; Statistics 1 0 1 "0.0"].
Proof. vm_compute. reflexivity. Qed.

Example scenario_tasks :
  tasks (run io_ok scenario init) = [Task.mk 2 "Pay rent" false t0].
Proof. vm_compute. reflexivity. Qed.

(** One completed task out of three shows as 33.3. *)
Example rate_1_of_3 : format_1f (completion_rate 1 3) = "33.3"%string.
Proof. vm_compute. reflexivity. Qed.

(** The rate is rounded from its binary64 value: 3 of 2000 is 0.15 exactly,
    the computed double lies just below and shows as 0.1. *)
Example rate_3_of_2000 : format_1f (completion_rate 3 2000) = "0.1"%string.
Proof. vm_compute. reflexivity. Qed.

(** ** Runs without removal, rounding, and ASCII text *)

Lemma length_run_without_removal (io_error : nat → bool) ops s :
  Forall (λ o, is_removal o = false) ops →
  length (tasks (run io_error ops s)) = (length (tasks s) + count_adds ops)%nat.
Proof.
  intros Hops. revert s.
  induction Hops as [|o ops Ho _ IH]; intros s; [cbn; lia|].
  rewrite run_cons, IH.
  destruct o as [d now|n|n| |n d| |k]; try discriminate; cbn [step count_adds].
  - rewrite tasks_add_task, length_app. cbn [length]. lia.
  - pose proof (f_equal length (ids_complete_task io_error n s)) as E.
    unfold ids in E. rewrite !length_fmap in E. lia.
  - pose proof (f_equal length (ids_edit_task io_error n d s)) as E.
    unfold ids in E. rewrite !length_fmap in E. lia.
  - by rewrite tasks_show_statistics.
  - by rewrite tasks_search_tasks.
Qed.

(** [round_tenths] rounds to the nearest tenth, ties to even. *)
Lemma round_tenths_rounded m e : rounded_to_tenths m e (round_tenths m e).
Proof.
  unfold rounded_to_tenths, round_tenths.
  destruct (0 <=? e) eqn:E.
  - apply Z.leb_le in E.
    rewrite (Z.max_r 0 e), (Z.max_l 0 (- e)) by lia.
    change (2 ^ 0) with 1.
    replace (10 * (Z.pos m * 2 ^ e) * 1 - 10 * Z.pos m * 2 ^ e) with 0 by lia.
    cbn. split; [lia | discriminate].
  - apply Z.leb_gt in E.
    rewrite (Z.max_l 0 e), (Z.max_r 0 (- e)) by lia.
    change (2 ^ 0) with 1. rewrite Z.mul_1_r.
    set (num := 10 * Z.pos m). set (den := 2 ^ (- e)).
    assert (Hden : 0 < den) by (apply Z.pow_pos_nonneg; lia).
    pose proof (Z.div_mod num den ltac:(lia)) as Hdiv.
    pose proof (Z.mod_pos_bound num den Hden) as Hmod.
    set (q := num / den) in *. set (r := num mod den) in *.
    clearbody q r. clearbody den. clearbody num.
    destruct (Z.compare_spec (2 * r) den) as [C|C|C].
    + destruct (Z.even q) eqn:Ev.
      * replace (q * den - num) with (- r) by lia.
        rewrite Z.abs_opp, Z.abs_eq by lia. split; [lia | done].
      * replace ((q + 1) * den - num) with (den - r) by lia.
        rewrite Z.abs_eq by lia. split; [lia|]. intros _.
        rewrite Z.add_1_r, Z.even_succ, <- Z.negb_even, Ev. done.
    + replace (q * den - num) with (- r) by lia.
      rewrite Z.abs_opp, Z.abs_eq by lia.
      split; [lia | intros T; exfalso; lia].
    + replace ((q + 1) * den - num) with (den - r) by lia.
      rewrite Z.abs_eq by lia.
      split; [lia | intros T; exfalso; lia].
Qed.

(** Rounding to one decimal place leaves no choice. *)
Lemma rounded_to_tenths_unique m e n n' :
  rounded_to_tenths m e n → rounded_to_tenths m e n' → n = n'.
Proof.
  unfold rounded_to_tenths.
  set (num := 10 * Z.pos m * 2 ^ Z.max 0 e). set (den := 2 ^ Z.max 0 (- e)).
  assert (Hden : 0 < den) by (apply Z.pow_pos_nonneg; lia).
  clearbody den num. intros [H1 E1] [H2 E2].
  destruct (Z.lt_trichotomy n n') as [Hlt | [-> | Hgt]]; [|done|].
  - assert (n' = n + 1) by nia. subst n'.
    assert (T1 : 2 * Z.abs (n * den - num) = den) by nia.
    assert (T2 : 2 * Z.abs ((n + 1) * den - num) = den) by nia.
    specialize (E1 T1). specialize (E2 T2).
    rewrite Z.add_1_r, Z.even_succ, <- Z.negb_even, E1 in E2. discriminate.
  - assert (n = n' + 1) by nia. subst n.
    assert (T1 : 2 * Z.abs ((n' + 1) * den - num) = den) by nia.
    assert (T2 : 2 * Z.abs (n' * den - num) = den) by nia.
    specialize (E1 T1). specialize (E2 T2).
    rewrite Z.add_1_r, Z.even_succ, <- Z.negb_even, E2 in E1. discriminate.
Qed.

(** [format_1f] shows its argument rounded to one decimal place. *)
Lemma format_1f_shows_rounded x : shows_rounded x (format_1f x).
Proof.
  unfold shows_rounded, format_1f, tenths_of_float.
  destruct (Prim2SF x) as [sg|sg| |sg m e]; try done.
  destruct sg; [done|].
  exists (round_tenths m e). split; [done | apply round_tenths_rounded].
Qed.

(** On ASCII text the code points go to lower case one by one, as in
    [lower], and containment is the same in both models: the test of
    [search_tasks] on bytes is the test on code points. *)
Lemma lower_point_ascii c :
  (nat_of_ascii c <? 128)%nat = true →
  (N_of_ascii c =? 931)%N = false ∧
  lower_point (N_of_ascii c) = N_of_ascii (lower_char c).
Proof.
  destruct c as [[] [] [] [] [] [] [] []]; intros H;
    first [ by vm_compute in H | vm_compute; split; reflexivity ].
Qed.

Lemma lower_points_ascii before s :
  is_ascii_text s = true →
  lower_points_from before (points_of s) = points_of (lower s).
Proof.
  revert before. induction s as [|c s IH]; intros before H; [done|].
  cbn [is_ascii_text] in H. apply andb_true_iff in H as [Hc Hs].
  destruct (lower_point_ascii c Hc) as [Hsigma Hlow].
  cbn [points_of lower lower_points_from]. rewrite Hsigma, Hlow.
  f_equal. by apply IH.
Qed.

Lemma N_of_ascii_eqb a b :
  (N_of_ascii a =? N_of_ascii b)%N = true ↔ a = b.
Proof.
  rewrite N.eqb_eq. split; [|by intros ->].
  intros E. rewrite <- (ascii_N_embedding a), <- (ascii_N_embedding b).
  by rewrite E.
Qed.

Lemma points_prefix_of a b :
  points_prefix (points_of a) (points_of b) = String.prefix a b.
Proof.
  revert a. induction b as [|y b IH]; intros [|x a]; cbn; try done.
  destruct (Ascii.ascii_dec x y) as [->|Hne].
  - rewrite N.eqb_refl. apply IH.
  - destruct (N_of_ascii x =? N_of_ascii y)%N eqn:E; [|done].
    by apply N_of_ascii_eqb in E.
Qed.

Lemma points_in_of a b : points_in (points_of a) (points_of b) = str_in a b.
Proof.
  induction b as [|y b IH]; cbn [points_of points_in str_in].
  - by rewrite <- points_prefix_of.
  - by rewrite <- points_prefix_of, IH.
Qed.

Lemma search_test_on_ascii keyword description :
  is_ascii_text keyword = true → is_ascii_text description = true →
  points_in (lower_points (points_of keyword))
            (lower_points (points_of description)) =
  str_in (lower keyword) (lower description).
Proof.
  intros Hk Hd. unfold lower_points.
  by rewrite !lower_points_ascii, points_in_of.
Qed.

(** * The claims *)

(** C1 (defect). Ids are meant to be unique, yet [add_task] numbers a new
    task [len(tasks) + 1]: after "a" and "b" are added, task 1 is deleted
    and "c" is added, the list holds two tasks with id 2. *)
Theorem add_after_delete_reuses_id :
  ids (tasks (run io_ok reuse_session init)) = [2; 2] ∧
  ¬ NoDup (ids (tasks (run io_ok reuse_session init))).
Proof.
  assert (E : ids (tasks (run io_ok reuse_session init)) = [2; 2])
    by (vm_compute; reflexivity).
  split; [exact E|]. rewrite E. intros Hnd.
  apply NoDup_cons in Hnd as [Hnotin _]. apply Hnotin. left.
Qed.

(** C2 (as the code has it). [add_task] appends exactly one task, numbered
    [len(tasks) + 1], not completed and stamped with the current time, keeps
    the tasks already there and writes the new list; hence a run of
    [add_task] calls appends the ids [len + 1, len + 2, ...], and from the
    empty manager every run of calls without [delete_task] and without
    [clear_completed], whatever else comes between the adds, yields the ids
    [1, 2, ..., n], [n] the number of adds. *)
Theorem add_task_appends_next_id (io_error : nat → bool) :
  (∀ d now s,
     tasks (add_task io_error d now s) =
       tasks s ++ [Task.mk (Z.of_nat (length (tasks s)) + 1) d false now] ∧
     saved (add_task io_error d now s) =
       saved s ++ [tasks (add_task io_error d now s)] ∧
     last (out (add_task io_error d now s)) = Some (TaskAdded d)) ∧
  (∀ adds s,
     ids (tasks (run io_error (add_ops adds) s)) =
       ids (tasks s) ++
       seqZ (Z.of_nat (length (tasks s)) + 1) (Z.of_nat (length adds))) ∧
  (∀ ops,
     Forall (λ o, is_removal o = false) ops →
     ids (tasks (run io_error ops init)) =
       seqZ 1 (Z.of_nat (count_adds ops))).
Proof.
  split_and!.
  - intros d now s. split_and!.
    + apply tasks_add_task.
    + apply saved_add_task.
    + apply last_out_print.
  - intros adds s. apply ids_run_add_ops.
  - intros ops Hops.
    pose proof (numbered_run io_error ops init Hops) as Hnum.
    unfold numbered in Hnum. rewrite Hnum by reflexivity.
    by rewrite (length_run_without_removal io_error ops init Hops).
Qed.

Lemma add_task_appends_next_id_witness :
  ids (tasks (run io_ok
                [Add "a" t0; Complete 1; Add "b" t0; Edit 2 "B"; Search "a";
                 ShowStatistics; Add "c" t0] init)) =
  seqZ 1 3.
Proof.
  apply (proj2 (proj2 (add_task_appends_next_id io_ok))
           [Add "a" t0; Complete 1; Add "b" t0; Edit 2 "B"; Search "a";
            ShowStatistics; Add "c" t0]).
  repeat constructor.
Defined.

(** C2, the claim as written fails: no [delete_task] is called in this
    session, yet [clear_completed] removes task 1 and the next [add_task]
    numbers its task 2 again. *)
Lemma clear_completed_then_add_reuses_id :
  Forall (λ o, ∀ n, o ≠ Delete n) clear_session ∧
  ids (tasks (run io_ok clear_session init)) = [2; 2] ∧
  ids (tasks (run io_ok clear_session init)) ≠
    seqZ 1 (Z.of_nat (length (tasks (run io_ok clear_session init)))).
Proof.
  split_and!.
  - repeat constructor; discriminate.
  - vm_compute. reflexivity.
  - vm_compute. discriminate.
Qed.

(** C3. [complete_task] ends in one of three ways: the id is absent and
    only "not found" is printed; the first task with the id is already
    completed and only "already completed" is printed; or that task is
    marked completed, the list is written and "marked as completed" is
    printed.  When some task carries the id, a second call changes neither
    the tasks nor the writes and prints "already completed". *)
Theorem complete_task_outcomes (io_error : nat → bool) (n : Z) (s : TaskManager) :
  let s1 := complete_task io_error n s in
  let s2 := complete_task io_error n s1 in
  ((absent n (tasks s) ∧ s1 = print (NotFound n) s) ∨
   (∃ l1 t l2, tasks s = l1 ++ t :: l2 ∧ Task.id t = n ∧ absent n l1 ∧
      Task.completed t = true ∧ s1 = print (AlreadyCompleted n) s) ∨
   (∃ l1 t l2, tasks s = l1 ++ t :: l2 ∧ Task.id t = n ∧ absent n l1 ∧
      Task.completed t = false ∧
      tasks s1 = l1 ++ Task.set_completed true t :: l2 ∧
      saved s1 = saved s ++ [tasks s1] ∧
      last (out s1) = Some (MarkedCompleted n))) ∧
  ((∃ t, t ∈ tasks s ∧ Task.id t = n) →
   tasks s2 = tasks s1 ∧ saved s2 = saved s1 ∧
   out s2 = out s1 ++ [AlreadyCompleted n]).
Proof.
  intros s1 s2.
  destruct (find_task_cases n (tasks s))
    as [[_ Habs] | (l1 & t & l2 & _ & Hs & Hid & Habs)].
  - split.
    + left. split; [done|]. by apply complete_task_absent.
    + intros (t & Ht & Hid). unfold absent in Habs.
      rewrite Forall_forall in Habs. by destruct (Habs t Ht).
  - assert (E1 : s1 = complete_task io_error n s) by done.
    rewrite (complete_task_first io_error n s l1 t l2) in E1 by done.
    destruct (Task.completed t) eqn:Hc.
    + split.
      * right. left. exists l1, t, l2. done.
      * intros _. subst s2.
        rewrite (complete_task_first io_error n s1 l1 t l2); [|by rewrite E1|done..].
        by rewrite Hc.
    + assert (Ht1 : tasks s1 = l1 ++ Task.set_completed true t :: l2).
      { rewrite E1. cbn [print tasks]. by rewrite tasks_save_tasks. }
      split.
      * right. right. exists l1, t, l2. split_and!; try done.
        -- rewrite Ht1, E1. cbn [print saved]. by rewrite saved_save_tasks.
        -- rewrite E1. apply last_out_print.
      * intros _. subst s2.
        by rewrite (complete_task_first io_error n s1 l1 (Task.set_completed true t) l2).
Qed.

Lemma complete_task_outcomes_witness :
  let s := run io_ok [Add "Buy milk" t0; Add "Pay rent" t0] init in
  let s1 := complete_task io_ok 1 s in
  let s2 := complete_task io_ok 1 s1 in
  tasks s2 = tasks s1 ∧ saved s2 = saved s1 ∧
  out s2 = out s1 ++ [AlreadyCompleted 1].
Proof.
  intros s s1 s2.
  apply (proj2 (complete_task_outcomes io_ok 1 s)).
  exists (Task.mk 1 "Buy milk" false t0). split; [|reflexivity].
  vm_compute. left.
Defined.

(** C4 (defect). A second [delete_task] of the same id should find
    nothing, but once an id has been reused it removes the other task
    carrying it: in the session of C1 the two calls delete "b" and then
    "c". *)
Theorem delete_twice_removes_duplicate :
  let s := run io_ok reuse_session init in
  let s1 := delete_task io_ok 2 s in
  let s2 := delete_task io_ok 2 s1 in
  out s1 = out s ++ [Deleted 2 "b"] ∧
  out s2 = out s1 ++ [Deleted 2 "c"] ∧
  s2 ≠ print (NotFound 2) s1.
Proof.
  intros s s1 s2. split_and!.
  - vm_compute; reflexivity.
  - vm_compute; reflexivity.
  - intros E. apply (f_equal tasks) in E. vm_compute in E. discriminate E.
Qed.

(** C5. [clear_completed] keeps exactly the tasks that are not completed,
    as often and in the order they had; it reports the number of completed
    tasks it removed and writes the list when that number is positive, and
    it changes nothing and writes nothing when there was none. *)
Theorem clear_completed_removes_completed (io_error : nat → bool) (s : TaskManager) :
  let s' := clear_completed io_error s in
  let removed := Z.of_nat (count_completed (tasks s)) in
  selects (λ t, Task.completed t = false) (tasks s) (tasks s') ∧
  Z.of_nat (length (tasks s)) - Z.of_nat (length (tasks s')) = removed ∧
  ((removed = 0 ∧ s' = print NoCompletedToRemove s) ∨
   (0 < removed ∧ saved s' = saved s ++ [tasks s'] ∧
    last (out s') = Some (RemovedCompleted removed))).
Proof.
  intros s' removed.
  pose proof (length_pending_completed (tasks s)) as Hlen.
  assert (Hrem : Z.of_nat (length (tasks s)) -
                 Z.of_nat (length (filter (λ t, Task.completed t = false) (tasks s)))
                 = removed) by (subst removed; lia).
  assert (Ht : tasks s' = filter (λ t, Task.completed t = false) (tasks s)).
  { subst s'. unfold clear_completed. cbn [with_tasks tasks]. rewrite Hrem.
    destruct (0 <? removed); cbn [print tasks]; [by rewrite tasks_save_tasks | done]. }
  split_and!.
  - rewrite Ht. apply selects_filter.
  - by rewrite Ht.
  - subst s'. unfold clear_completed in *. cbn [with_tasks tasks] in *.
    rewrite Hrem in *. destruct (0 <? removed) eqn:E.
    + right. apply Z.ltb_lt in E. split_and!; [done| |apply last_out_print].
      cbn [print saved tasks]. by rewrite saved_save_tasks, tasks_save_tasks.
    + left. apply Z.ltb_ge in E.
      assert (H0 : count_completed (tasks s) = 0%nat) by (subst removed; lia).
      split; [subst removed; lia|].
      fold (with_tasks (filter (λ t, Task.completed t = false) (tasks s)) s).
      by rewrite (filter_pending_all _ H0), with_tasks_same.
Qed.

(** C6. [delete_task] either finds no task with the id, prints "not found"
    and changes nothing, or removes the first task with the id, keeps the
    tasks before and after it in order, writes the list and reports the
    removed task's description. *)
Theorem delete_task_removes_match (io_error : nat → bool) (n : Z) (s : TaskManager) :
  let s' := delete_task io_error n s in
  (absent n (tasks s) ∧ s' = print (NotFound n) s) ∨
  (∃ l1 t l2, tasks s = l1 ++ t :: l2 ∧ Task.id t = n ∧ absent n l1 ∧
     tasks s' = l1 ++ l2 ∧
     saved s' = saved s ++ [l1 ++ l2] ∧
     last (out s') = Some (Deleted n (Task.description t))).
Proof.
  intros s'. subst s'.
  destruct (find_task_cases n (tasks s))
    as [[_ Habs] | (l1 & t & l2 & _ & Hs & Hid & Habs)].
  - left. split; [done | by apply delete_task_absent].
  - right. exists l1, t, l2.
    rewrite (delete_task_first io_error n s l1 t l2) by done.
    cbn [print tasks saved]. rewrite tasks_save_tasks, saved_save_tasks.
    split_and!; try done. apply last_out_print.
Qed.

(** C7. [edit_task] either finds no task with the id, prints "not found"
    and changes nothing, or replaces the description of the first task with
    the id, keeping its id, completed flag and creation time and every
    other task, writes the list and reports the old and the new
    description. *)
Theorem edit_task_replaces_description
    (io_error : nat → bool) (n : Z) (d : string) (s : TaskManager) :
  let s' := edit_task io_error n d s in
  (absent n (tasks s) ∧ s' = print (NotFound n) s) ∨
  (∃ l1 t l2 t', tasks s = l1 ++ t :: l2 ∧ Task.id t = n ∧ absent n l1 ∧
     tasks s' = l1 ++ t' :: l2 ∧
     Task.description t' = d ∧
     Task.id t' = Task.id t ∧
     Task.completed t' = Task.completed t ∧
     Task.created_at t' = Task.created_at t ∧
     saved s' = saved s ++ [tasks s'] ∧
     last (out s') = Some (Updated n (Task.description t) d)).
Proof.
  intros s'. subst s'.
  destruct (find_task_cases n (tasks s))
    as [[_ Habs] | (l1 & t & l2 & _ & Hs & Hid & Habs)].
  - left. split; [done | by apply edit_task_absent].
  - right. exists l1, t, l2, (Task.set_description d t).
    rewrite (edit_task_first io_error n d s l1 t l2) by done.
    cbn [print tasks saved]. rewrite tasks_save_tasks, saved_save_tasks.
    split_and!; try done. apply last_out_print.
Qed.




(** C9 (as the code has it). [show_statistics] never changes the tasks and
    never writes.  On an empty list it only prints that there is nothing to
    show.  Otherwise it prints the number of tasks, the number of completed
    ones, their difference, and [completed / total * 100], the value Python
    computes, rounded to one decimal place: to the nearest tenth, to the
    even one of two equally near. *)
Theorem show_statistics_reports (s : TaskManager) :
  let s' := show_statistics s in
  let total := Z.of_nat (length (tasks s)) in
  let completed := Z.of_nat (count_completed (tasks s)) in
  tasks s' = tasks s ∧ saved s' = saved s ∧
  ((tasks s = [] ∧ out s' = out s ++ [NoStatistics]) ∨
   (0 < total ∧
    ∃ rate,
      out s' = out s ++
        [Statistics total completed (total - completed) rate] ∧
      shows_rounded
        (PrimFloat.mul
           (PrimFloat.div (float_of_int completed) (float_of_int total))
           (float_of_int 100))
        rate)).
Proof.
  intros s' total completed. split_and!.
  - apply tasks_show_statistics.
  - subst s'. unfold show_statistics. by destruct (tasks s).
  - subst s' total completed. unfold show_statistics.
    rewrite <- sum_completed_count.
    destruct (tasks s) as [|t l] eqn:E; [by left | right].
    split; [cbn [length]; lia|].
    cbn [print out]. unfold completion_rate.
    replace (0 <? Z.of_nat (length (t :: l))) with true
      by (symmetry; apply Z.ltb_lt; cbn [length]; lia).
    eexists. split; [reflexivity|]. apply format_1f_shows_rounded.
Qed.

(** C9, the claim as written fails: on the empty manager no total, count or
    rate is reported at all, so no rate of 0 either. *)
Lemma show_statistics_empty_reports_nothing :
  out (show_statistics init) = [NoStatistics] ∧
  ¬ ∃ rate, out (show_statistics init) = [Statistics 0 0 0 rate].
Proof.
  split; [reflexivity|]. intros [rate H]. discriminate H.
Qed.

(** C10. When the list splits at the first task [t] carrying the id, the
    three lookups touch [t] only: the tasks before and after it, among them
    every later task with the same id, stay as they are. *)
Theorem lookup_touches_first_match_only
    (io_error : nat → bool) (n : Z) (d : string) (s : TaskManager)
    (l1 l2 : list Task.t) (t : Task.t) :
  tasks s = l1 ++ t :: l2 → Task.id t = n → absent n l1 →
  tasks (complete_task io_error n s) = l1 ++ Task.set_completed true t :: l2 ∧
  tasks (delete_task io_error n s) = l1 ++ l2 ∧
  tasks (edit_task io_error n d s) = l1 ++ Task.set_description d t :: l2.
Proof.
  intros Hs Hid Habs. split_and!.
  - rewrite (complete_task_first io_error n s l1 t l2) by done.
    destruct (Task.completed t) eqn:Hc.
    + cbn [print tasks]. rewrite Hs. do 2 f_equal.
      destruct t; cbn in *; by subst.
    + cbn [print tasks]. by rewrite tasks_save_tasks.
  - rewrite (delete_task_first io_error n s l1 t l2) by done.
    cbn [print tasks]. by rewrite tasks_save_tasks.
  - rewrite (edit_task_first io_error n d s l1 t l2) by done.
    cbn [print tasks]. by rewrite tasks_save_tasks.
Qed.

Lemma lookup_touches_first_match_only_witness :
  let s := run io_ok reuse_session init in
  let b := Task.mk 2 "b" false t0 in
  let c := Task.mk 2 "c" false t0 in
  tasks s = [b; c] ∧
  tasks (complete_task io_ok 2 s) = [Task.set_completed true b; c] ∧
  tasks (delete_task io_ok 2 s) = [c] ∧
  tasks (edit_task io_ok 2 "B" s) = [Task.set_description "B" b; c].
Proof.
  intros s b c. split; [reflexivity|].
  apply (lookup_touches_first_match_only io_ok 2 "B" s [] [c] b).
  - reflexivity.
  - reflexivity.
  - constructor.
Defined.


(** * Further properties of the store *)

Lemma tasks_clear_completed (io_error : nat → bool) s :
  tasks (clear_completed io_error s) =
  filter (λ t, Task.completed t = false) (tasks s).
Proof.
  unfold clear_completed. cbn [with_tasks tasks].
  destruct (0 <? _); cbn [print tasks]; [by rewrite tasks_save_tasks | done].
Qed.

Section StoreMore.

Variable io_error : nat → bool.

Lemma removed_count s :
  Z.of_nat (length (tasks s)) -
  Z.of_nat (length (filter (λ t, Task.completed t = false) (tasks s))) =
  Z.of_nat (count_completed (tasks s)).
Proof. pose proof (length_pending_completed (tasks s)). lia. Qed.

Lemma clear_completed_none s :
  count_completed (tasks s) = 0%nat →
  clear_completed io_error s = print NoCompletedToRemove s.
Proof.
  intros H0. unfold clear_completed. cbn [with_tasks tasks].
  rewrite removed_count, H0. cbn [Z.of_nat Z.ltb Z.compare].
  fold (with_tasks (filter (λ t, Task.completed t = false) (tasks s)) s).
  by rewrite (filter_pending_all _ H0), with_tasks_same.
Qed.

Lemma clear_completed_some s :
  (0 < count_completed (tasks s))%nat →
  clear_completed io_error s =
  print (RemovedCompleted (Z.of_nat (count_completed (tasks s))))
    (save_tasks io_error
       (with_tasks (filter (λ t, Task.completed t = false) (tasks s)) s)).
Proof.
  intros Hpos. unfold clear_completed. cbn [with_tasks tasks].
  rewrite removed_count.
  by replace (0 <? Z.of_nat (count_completed (tasks s))) with true
    by (symmetry; apply Z.ltb_lt; lia).
Qed.

Lemma count_completed_pending l :
  count_completed (filter (λ t, Task.completed t = false) l) = 0%nat.
Proof.
  unfold count_completed. rewrite list_filter_filter.
  induction l as [|t l IH]; [done|].
  rewrite filter_cons_False; [done|]. intros [? ?]. congruence.
Qed.

(** A call either leaves tasks and writes alone, or appends one write,
    which holds the new task list. *)
Lemma step_writes_what_it_changes s o :
  (tasks (step io_error s o) = tasks s ∧ saved (step io_error s o) = saved s) ∨
  saved (step io_error s o) = saved s ++ [tasks (step io_error s o)].
Proof.
  destruct o as [d now|n|n| |n d| |k]; cbn [step].
  - right. apply saved_add_task.
  - destruct (find_task_cases n (tasks s))
      as [[_ Habs] | (l1 & t & l2 & _ & Hs & Hid & Habs)].
    + left. by rewrite complete_task_absent.
    + rewrite (complete_task_first io_error n s l1 t l2) by done.
      destruct (Task.completed t); [by left | right].
      cbn [print saved tasks]. by rewrite saved_save_tasks, tasks_save_tasks.
  - destruct (find_task_cases n (tasks s))
      as [[_ Habs] | (l1 & t & l2 & _ & Hs & Hid & Habs)].
    + left. by rewrite delete_task_absent.
    + right. rewrite (delete_task_first io_error n s l1 t l2) by done.
      cbn [print saved tasks]. by rewrite saved_save_tasks, tasks_save_tasks.
  - destruct (decide (count_completed (tasks s) = 0%nat)) as [H0|Hpos].
    + left. by rewrite clear_completed_none.
    + right. rewrite clear_completed_some by lia.
      cbn [print saved tasks]. by rewrite saved_save_tasks, tasks_save_tasks.
  - destruct (find_task_cases n (tasks s))
      as [[_ Habs] | (l1 & t & l2 & _ & Hs & Hid & Habs)].
    + left. by rewrite edit_task_absent.
    + right. rewrite (edit_task_first io_error n d s l1 t l2) by done.
      cbn [print saved tasks]. by rewrite saved_save_tasks, tasks_save_tasks.
  - left. split; [apply tasks_show_statistics|].
    unfold show_statistics. by destruct (tasks s).
  - left. split; [apply tasks_search_tasks|].
    unfold search_tasks. by destruct (matching_tasks _ _).
Qed.

Lemma tasks_step_congr (io_error' : nat → bool) s1 s2 o :
  tasks s1 = tasks s2 →
  tasks (step io_error s1 o) = tasks (step io_error' s2 o).
Proof.
  intros H. destruct o as [d now|n|n| |n d| |k]; cbn [step].
  - by rewrite !tasks_add_task, H.
  - unfold complete_task. rewrite H.
    destruct (find_task n (tasks s2)) as [[i t]|]; [|done].
    destruct (Task.completed t); [done|].
    cbn [print tasks]. by rewrite !tasks_save_tasks.
  - unfold delete_task. rewrite H.
    destruct (find_task n (tasks s2)) as [[i t]|]; [|done].
    cbn [print tasks]. by rewrite !tasks_save_tasks.
  - by rewrite !tasks_clear_completed, H.
  - unfold edit_task. rewrite H.
    destruct (find_task n (tasks s2)) as [[i t]|]; [|done].
    cbn [print tasks]. by rewrite !tasks_save_tasks.
  - by rewrite !tasks_show_statistics.
  - by rewrite !tasks_search_tasks.
Qed.

Lemma tasks_run_congr (io_error' : nat → bool) ops s1 s2 :
  tasks s1 = tasks s2 →
  tasks (run io_error ops s1) = tasks (run io_error' ops s2).
Proof.
  revert s1 s2. induction ops as [|o ops IH]; intros s1 s2 H; [done|].
  rewrite !run_cons. apply IH. by apply tasks_step_congr.
Qed.

(** Removing calls leave a sublist; the other calls that are not
    [add_task] keep the ids and the length. *)
Lemma tasks_step_removal s o :
  is_removal o = true → tasks (step io_error s o) `sublist_of` tasks s.
Proof.
  destruct o as [d now|n|n| |n d| |k]; try discriminate; intros _; cbn [step].
  - unfold delete_task. destruct (find_task n (tasks s)) as [[i t]|]; [|done].
    cbn [print tasks]. rewrite tasks_save_tasks. apply sublist_delete.
  - rewrite tasks_clear_completed. apply sublist_filter.
Qed.

Lemma ids_step_other s o :
  is_removal o = false → count_adds [o] = 0%nat →
  ids (tasks (step io_error s o)) = ids (tasks s).
Proof.
  destruct o as [d now|n|n| |n d| |k]; try discriminate; intros _ _; cbn [step].
  - apply ids_complete_task.
  - apply ids_edit_task.
  - by rewrite tasks_show_statistics.
  - by rewrite tasks_search_tasks.
Qed.

End StoreMore.

Lemma sublist_lookup_later {A} (l' l : list A) k x :
  l' `sublist_of` l → l' !! k = Some x →
  ∃ j, (k ≤ j)%nat ∧ l !! j = Some x.
Proof.
  intros Hsub. revert k.
  induction Hsub as [|y l1 l2 _ IH|y l1 l2 _ IH]; intros k Hk.
  - done.
  - destruct k as [|k]; cbn in Hk.
    + exists 0%nat. split; [lia | done].
    + destruct (IH k Hk) as (j & ? & ?). exists (S j). split; [lia | done].
  - destruct (IH k Hk) as (j & ? & ?). exists (S j). split; [lia | done].
Qed.

Lemma Forall_sublist_of {A} (P : A → Prop) (l' l : list A) :
  l' `sublist_of` l → Forall P l → Forall P l'.
Proof.
  induction 1 as [|y l1 l2 _ IH|y l1 l2 _ IH]; intros H; [done|..].
  - apply Forall_cons in H as [? ?]. constructor; auto.
  - apply Forall_cons in H as [? ?]. auto.
Qed.

Lemma ids_sublist l' l : l' `sublist_of` l → ids l' `sublist_of` ids l.
Proof. unfold ids. induction 1; cbn; by constructor. Qed.

Lemma ids_above_position_sublist l' l :
  l' `sublist_of` l → ids_above_position l → ids_above_position l'.
Proof.
  intros Hsub H k t Hk.
  destruct (sublist_lookup_later _ _ _ _ Hsub Hk) as (j & Hj & Hl).
  specialize (H j t Hl). lia.
Qed.

Lemma ids_above_position_ids l' l :
  ids l' = ids l → ids_above_position l → ids_above_position l'.
Proof.
  intros E H k t Hk.
  assert (Hid : ids l !! k = Some (Task.id t)).
  { rewrite <- E. unfold ids. by rewrite list_lookup_fmap, Hk. }
  unfold ids in Hid. rewrite list_lookup_fmap in Hid.
  destruct (l !! k) as [u|] eqn:Hu; [|done].
  injection Hid as <-. by apply H.
Qed.

Lemma Forall_ids (P : Z → Prop) l :
  Forall (λ t, P (Task.id t)) l ↔ Forall P (ids l).
Proof. unfold ids. by rewrite Forall_fmap. Qed.

(** X1. Whether writes fail or not makes no difference to the tasks in
    memory: two runs of the same calls end with the same task list. *)
Theorem tasks_independent_of_write_errors
    (io_error io_error' : nat → bool) (ops : list Op) (s : TaskManager) :
  tasks (run io_error ops s) = tasks (run io_error' ops s).
Proof. by apply tasks_run_congr. Qed.

(** X2. Writes are only appended, and after any run either nothing was
    written and the tasks are the ones at the start, or the last list
    handed to [save_tasks] is the current task list. *)
Theorem last_write_is_current
    (io_error : nat → bool) (ops : list Op) (s : TaskManager) :
  saved s `prefix_of` saved (run io_error ops s) ∧
  ((tasks (run io_error ops s) = tasks s ∧
    saved (run io_error ops s) = saved s) ∨
   last (saved (run io_error ops s)) = Some (tasks (run io_error ops s))).
Proof.
  revert s. induction ops as [|o ops IH]; intros s.
  - split; [done | by left].
  - rewrite run_cons.
    destruct (IH (step io_error s o)) as [Hpre Hlast].
    destruct (step_writes_what_it_changes io_error s o) as [[Ht Hs] | Hw].
    + rewrite Ht, Hs in *. by split.
    + split.
      * etrans; [|exact Hpre]. rewrite Hw. by apply prefix_app_r.
      * right. destruct Hlast as [[Ht Hs] | Hlast]; [|done].
        rewrite Hs, Hw, Ht. apply last_snoc.
Qed.

(** X3. From the empty manager every id is at least the 1-based position
    of its task, hence positive, and at most the number of [add_task]
    calls made so far, which also bounds the number of tasks. *)
Theorem ids_between_position_and_adds
    (io_error : nat → bool) (ops : list Op) :
  ids_above_position (tasks (run io_error ops init)) ∧
  Forall (λ t, 1 ≤ Task.id t ≤ Z.of_nat (count_adds ops))
         (tasks (run io_error ops init)) ∧
  (length (tasks (run io_error ops init)) ≤ count_adds ops)%nat.
Proof.
  assert (Inv : ∀ ops s (b : nat),
    ids_above_position (tasks s) →
    Forall (λ t, Task.id t ≤ Z.of_nat b) (tasks s) →
    (length (tasks s) ≤ b)%nat →
    ids_above_position (tasks (run io_error ops s)) ∧
    Forall (λ t, Task.id t ≤ Z.of_nat (b + count_adds ops)) (tasks (run io_error ops s)) ∧
    (length (tasks (run io_error ops s)) ≤ b + count_adds ops)%nat).
  { clear ops. induction ops as [|o ops IH]; intros s b Hpos Hub Hlen.
    - cbn [count_adds run fold_left]. rewrite Nat.add_0_r. done.
    - rewrite run_cons.
      destruct (is_removal o) eqn:Hrem.
      + assert (Hsub := tasks_step_removal io_error s o Hrem).
        replace (count_adds (o :: ops)) with (count_adds ops)
          by (by destruct o).
        apply IH.
        * by eapply ids_above_position_sublist.
        * by eapply Forall_sublist_of.
        * apply sublist_length in Hsub. lia.
      + destruct (decide (count_adds [o] = 0%nat)) as [Hadd|Hadd].
        * assert (Hids := ids_step_other io_error s o Hrem Hadd).
          replace (count_adds (o :: ops)) with (count_adds ops)
            by (destruct o; done).
          apply IH.
          -- by eapply ids_above_position_ids.
          -- apply (Forall_ids (λ n, n ≤ Z.of_nat b)). rewrite Hids.
             by apply (Forall_ids (λ n, n ≤ Z.of_nat b)).
          -- apply (f_equal length) in Hids. unfold ids in Hids.
             rewrite !length_fmap in Hids. lia.
        * destruct o as [d now|n|n| |n d| |k]; try done. cbn [step count_adds].
          replace (b + S (count_adds ops))%nat with (S b + count_adds ops)%nat by lia.
          apply IH; rewrite tasks_add_task.
          -- intros k t Hk. apply lookup_app_Some in Hk as [Hk | [Hge Hk]].
             ++ by apply Hpos.
             ++ apply list_lookup_singleton_Some in Hk as [Hk0 <-].
                cbn [Task.id]. lia.
          -- apply Forall_app. split.
             ++ eapply Forall_impl; [exact Hub|]. cbn beta. lia.
             ++ constructor; [|constructor]. cbn [Task.id]. lia.
          -- rewrite length_app. cbn [length]. lia. }
  destruct (Inv ops init 0%nat) as (Hpos & Hub & Hlen).
  - intros k t Hk. done.
  - constructor.
  - cbn. lia.
  - split_and!; [done| |done].
    apply Forall_forall. intros t Ht.
    rewrite Forall_forall in Hub. specialize (Hub t Ht).
    apply list_elem_of_lookup in Ht as [k Hk]. specialize (Hpos k t Hk).
    cbn in Hub. lia.
Qed.

(** X4. When no task carries the id [len(tasks) + 1], deleting that id
    right after [add_task] removes the task just added and gives back the
    task list from before, and the new description is the one reported. *)
Theorem add_then_delete_restores
    (io_error : nat → bool) (d now : string) (s : TaskManager) :
  let n := Z.of_nat (length (tasks s)) + 1 in
  absent n (tasks s) →
  tasks (delete_task io_error n (add_task io_error d now s)) = tasks s ∧
  last (out (delete_task io_error n (add_task io_error d now s))) =
    Some (Deleted n d).
Proof.
  intros n Habs.
  rewrite (delete_task_first io_error n (add_task io_error d now s)
             (tasks s) (Task.mk n d false now) []);
    [| apply tasks_add_task | done | done].
  cbn [print tasks]. rewrite tasks_save_tasks. cbn [with_tasks tasks].
  split; [by rewrite app_nil_r | apply last_out_print].
Qed.

Lemma add_then_delete_restores_witness :
  let s := run io_ok [Add "a" t0; Add "b" t0] init in
  tasks (delete_task io_ok 3 (add_task io_ok "c" t0 s)) = tasks s ∧
  last (out (delete_task io_ok 3 (add_task io_ok "c" t0 s))) =
    Some (Deleted 3 "c").
Proof.
  intros s. apply (add_then_delete_restores io_ok "c" t0 s).
  repeat constructor; cbn; lia.
Defined.

(** X5. Editing the same id twice leaves the task list that the second
    edit alone would leave; when the id is carried by some task the second
    call reports the first new description as the old one. *)
Theorem edit_task_twice_last_wins
    (io_error : nat → bool) (n : Z) (d1 d2 : string) (s : TaskManager) :
  let s2 := edit_task io_error n d2 (edit_task io_error n d1 s) in
  tasks s2 = tasks (edit_task io_error n d2 s) ∧
  ((absent n (tasks s) ∧ last (out s2) = Some (NotFound n)) ∨
   ((∃ t, t ∈ tasks s ∧ Task.id t = n) ∧
    last (out s2) = Some (Updated n d1 d2))).
Proof.
  intros s2. subst s2.
  destruct (find_task_cases n (tasks s))
    as [[_ Habs] | (l1 & t & l2 & _ & Hs & Hid & Habs)].
  - rewrite (edit_task_absent io_error n d1 s) by done.
    rewrite (edit_task_absent io_error n d2 (print _ s)) by done.
    rewrite (edit_task_absent io_error n d2 s) by done.
    split; [done|]. left. split; [done | apply last_out_print].
  - rewrite (edit_task_first io_error n d2 s l1 t l2) by done.
    rewrite (edit_task_first io_error n d2 (edit_task io_error n d1 s)
               l1 (Task.set_description d1 t) l2); [| |done|done].
    + cbn [print tasks]. rewrite !tasks_save_tasks. cbn [with_tasks tasks].
      split; [done|]. right. split; [|apply last_out_print].
      exists t. split; [|done]. rewrite Hs. apply elem_of_app. right. left.
    + rewrite (edit_task_first io_error n d1 s l1 t l2) by done.
      cbn [print tasks]. by rewrite tasks_save_tasks.
Qed.

(** X6. A second [clear_completed] in a row finds nothing to remove: it
    prints the no-op message and neither changes the tasks nor writes. *)
Theorem clear_completed_twice (io_error : nat → bool) (s : TaskManager) :
  clear_completed io_error (clear_completed io_error s) =
  print NoCompletedToRemove (clear_completed io_error s).
Proof.
  apply clear_completed_none.
  rewrite tasks_clear_completed. apply count_completed_pending.
Qed.

(** X7. Only [add_task] brings in an id: after any other call the id list
    is a sublist of the one before, so remaining tasks keep their ids and
    their order (ids are never renumbered). *)
Theorem ids_kept_by_other_calls
    (io_error : nat → bool) (s : TaskManager) (o : Op) :
  count_adds [o] = 0%nat →
  ids (tasks (step io_error s o)) `sublist_of` ids (tasks s).
Proof.
  intros Hadd. destruct (is_removal o) eqn:Hrem.
  - apply ids_sublist. by apply tasks_step_removal.
  - by rewrite ids_step_other.
Qed.

Lemma ids_kept_by_other_calls_witness :
  ids (tasks (step io_ok (run io_ok [Add "a" t0; Add "b" t0] init) (Delete 1)))
    `sublist_of` ids (tasks (run io_ok [Add "a" t0; Add "b" t0] init)).
Proof.
  apply (ids_kept_by_other_calls io_ok
           (run io_ok [Add "a" t0; Add "b" t0] init) (Delete 1)).
  reflexivity.
Defined.

(** * Further properties of searching and statistics *)

Section SearchMore.

Open Scope string_scope.

Lemma str_in_empty h : str_in "" h = true.
Proof. by destruct h. Qed.

Lemma append_assoc3 (a b c : string) : (a ++ b) ++ c = a ++ (b ++ c).
Proof.
  induction a as [|x a IH]; [done|].
  change (String x ((a ++ b) ++ c) = String x (a ++ (b ++ c))).
  by rewrite IH.
Qed.

Lemma str_in_trans a b c :
  str_in a b = true → str_in b c = true → str_in a c = true.
Proof.
  rewrite !str_in_spec.
  intros (p1 & q1 & ->) (p2 & q2 & ->).
  exists (p2 ++ p1), (q1 ++ q2). by rewrite !append_assoc3.
Qed.

Lemma matching_tasks_all l : matching_tasks "" l = l.
Proof.
  unfold matching_tasks. induction l as [|t l IH]; [done|].
  rewrite filter_cons_True by apply str_in_empty. by f_equal.
Qed.

End SearchMore.

Lemma show_statistics_nonempty s :
  tasks s ≠ [] →
  show_statistics s =
  print (Statistics (Z.of_nat (length (tasks s))) (sum_completed (tasks s))
           (Z.of_nat (length (tasks s)) - sum_completed (tasks s))
           (format_1f (completion_rate (sum_completed (tasks s))
                         (Z.of_nat (length (tasks s)))))) s.
Proof. unfold show_statistics. by destruct (tasks s). Qed.

(** X8. The store does not reject an empty keyword: it matches every
    description, so every task is found, in order; only on an empty list
    is "no matches" printed. *)
Theorem search_empty_keyword_finds_all (s : TaskManager) :
  matching_tasks "" (tasks s) = tasks s ∧
  ((tasks s = [] ∧ out (search_tasks "" s) = out s ++ [NoMatches ""]) ∨
   (tasks s ≠ [] ∧
    out (search_tasks "" s) = out s ++ [SearchResults "" (tasks s)])).
Proof.
  split; [apply matching_tasks_all|].
  unfold search_tasks. rewrite matching_tasks_all.
  destruct (tasks s); [left | right]; done.
Qed.

(** X9. On ASCII text a longer keyword narrows the result: when [k1] is
    contained in [k2] up to letter case, searching [k2] among the tasks
    found for [k1] gives the tasks found for [k2] in the whole list. *)
Theorem search_narrows (k1 k2 : string) (l : list Task.t) :
  is_ascii_text k1 = true → is_ascii_text k2 = true → ascii_tasks l →
  contains_ignoring_case k1 k2 →
  matching_tasks k2 (matching_tasks k1 l) = matching_tasks k2 l.
Proof.
  intros _ _ _ H%str_in_lower_spec. unfold matching_tasks.
  rewrite list_filter_filter. apply list_filter_iff. intros t. split.
  - tauto.
  - intros H2. split; [done|]. by eapply str_in_trans.
Qed.

Lemma search_narrows_witness :
  matching_tasks "Pay r"
    (matching_tasks "pay" (tasks (run io_ok scenario init))) =
  matching_tasks "Pay r" (tasks (run io_ok scenario init)).
Proof.
  apply (search_narrows "pay" "Pay r").
  1, 2: reflexivity.
  { vm_compute. repeat constructor. }
  exists ""%string, "Pay"%string, " r"%string. split; [reflexivity|].
  constructor; [right; left; split; [vm_compute; lia | reflexivity]|].
  constructor; [by left|]. constructor; [by left | constructor].
Defined.

(** X10. The letter case of the keyword does not matter: two keywords
    that differ only in case find the same tasks. *)
Theorem search_ignores_keyword_case (k1 k2 : string) (l : list Task.t) :
  same_ignoring_case k1 k2 → matching_tasks k1 l = matching_tasks k2 l.
Proof.
  intros H%same_ignoring_case_lower. unfold matching_tasks. by rewrite H.
Qed.

Lemma search_ignores_keyword_case_witness :
  matching_tasks "Ab" [Task.mk 1 "cab" false t0] =
  matching_tasks "aB" [Task.mk 1 "cab" false t0].
Proof.
  apply (search_ignores_keyword_case "Ab" "aB").
  constructor; [|constructor; [|constructor]].
  - right. left. split; [vm_compute; lia | reflexivity].
  - right. right. split; [vm_compute; lia | reflexivity].
Defined.

(** X11. On a non-empty list the three numbers shown by [show_statistics]
    count the tasks, the completed ones and the not completed ones: the
    pending number obtained by subtraction is the number of tasks whose
    flag is false, and neither count is negative or above the total. *)
Theorem show_statistics_counts (s : TaskManager) :
  tasks s ≠ [] →
  ∃ total completed pending rate,
    last (out (show_statistics s)) =
      Some (Statistics total completed pending rate) ∧
    total = Z.of_nat (length (tasks s)) ∧
    completed = Z.of_nat (count_completed (tasks s)) ∧
    pending =
      Z.of_nat (length (filter (λ t, Task.completed t = false) (tasks s))) ∧
    0 ≤ completed ≤ total ∧ 0 ≤ pending ≤ total.
Proof.
  intros Hne. rewrite show_statistics_nonempty by done.
  eexists _, _, _, _. split; [apply last_out_print|].
  rewrite sum_completed_count.
  pose proof (length_pending_completed (tasks s)).
  split_and!; try done; lia.
Qed.

Lemma show_statistics_counts_witness :
  ∃ total completed pending rate,
    last (out (show_statistics (run io_ok scenario init))) =
      Some (Statistics total completed pending rate) ∧
    total = Z.of_nat (length (tasks (run io_ok scenario init))) ∧
    completed = Z.of_nat (count_completed (tasks (run io_ok scenario init))) ∧
    pending =
      Z.of_nat (length (filter (λ t, Task.completed t = false)
                          (tasks (run io_ok scenario init)))) ∧
    0 ≤ completed ≤ total ∧ 0 ≤ pending ≤ total.
Proof.
  apply (show_statistics_counts (run io_ok scenario init)).
  vm_compute. discriminate.
Defined.

(** X12. For 1 to 150 tasks the rate shown is a one-decimal value nearest
    to the exact [100 * completed / total]: it is off by at most 0.05, it
    reads 0.0 when nothing is completed and 100.0 when everything is. *)
Theorem show_statistics_rate_nearest_tenth (s : TaskManager) :
  (1 ≤ length (tasks s) ≤ 150)%nat →
  let total := Z.of_nat (length (tasks s)) in
  let completed := Z.of_nat (count_completed (tasks s)) in
  ∃ n,
    last (out (show_statistics s)) =
      Some (Statistics total completed (total - completed)
              (string_of_tenths n)) ∧
    nearest_tenth completed total n ∧
    (completed = 0 → n = 0) ∧
    (completed = total → n = 1000).
Proof.
  intros Hlen total completed.
  assert (Hc : (count_completed (tasks s) ≤ length (tasks s))%nat)
    by (pose proof (length_pending_completed (tasks s)); lia).
  destruct (completion_rate_nearest_tenth _ _ Hlen Hc) as (n & Hn & Hnear).
  exists n. rewrite show_statistics_nonempty
    by (intros E; rewrite E in Hlen; cbn in Hlen; lia).
  rewrite sum_completed_count. unfold format_1f. rewrite Hn.
  split; [apply last_out_print|]. split; [done|].
  unfold nearest_tenth in Hnear. fold total completed in Hnear.
  assert (0 < total) by (subst total; lia).
  split; intros E; rewrite E in Hnear; nia.
Qed.

Lemma show_statistics_rate_nearest_tenth_witness :
  ∃ n,
    last (out (show_statistics
                 (run io_ok [Add "a" t0; Add "b" t0; Add "c" t0; Complete 2] init))) =
      Some (Statistics 3 1 (3 - 1) (string_of_tenths n)) ∧
    nearest_tenth 1 3 n ∧ (1 = 0 → n = 0) ∧ (1 = 3 → n = 1000).
Proof.
  apply (show_statistics_rate_nearest_tenth
           (run io_ok [Add "a" t0; Add "b" t0; Add "c" t0; Complete 2] init)).
  vm_compute. lia.
Defined.

(** * Further properties: the listing *)

Lemma shown_app a b : shown (a ++ b) = shown a ++ shown b.
Proof. apply flat_map_app. Qed.

Lemma created_shown_app a b :
  created_shown (a ++ b) = created_shown a ++ created_shown b.
Proof. apply flat_map_app. Qed.

Lemma shown_task_lines l :
  shown (flat_map task_lines l) =
  (λ t, (Task.completed t, Task.id t, Task.description t)) <$> l.
Proof.
  induction l as [|t l IH]; [done|].
  cbn [flat_map]. rewrite shown_app, IH.
  unfold task_lines. destruct (Task.completed t) eqn:E; cbn; by rewrite E.
Qed.

Lemma created_shown_task_lines l :
  created_shown (flat_map task_lines l) =
  Task.created_at <$> filter (λ t, Task.completed t = true) l.
Proof.
  induction l as [|t l IH]; [done|].
  cbn [flat_map]. rewrite created_shown_app, IH.
  unfold task_lines. destruct (Task.completed t) eqn:E.
  - by rewrite filter_cons_True.
  - by rewrite filter_cons_False by congruence.
Qed.

(** X13. [list_tasks] prints only "no tasks" for an empty list.  Otherwise
    it shows every task once, in list order, with its flag, id and
    description; it shows a creation time for the completed tasks only; and
    its last line gives the number of completed tasks and of tasks. *)
Theorem list_tasks_shows_every_task (s : TaskManager) :
  (tasks s = [] ∧ list_tasks s = [NoTasksFound]) ∨
  (tasks s ≠ [] ∧
   shown (list_tasks s) =
     (λ t, (Task.completed t, Task.id t, Task.description t)) <$> tasks s ∧
   created_shown (list_tasks s) =
     Task.created_at <$> filter (λ t, Task.completed t = true) (tasks s) ∧
   last (list_tasks s) =
     Some (Progress (Z.of_nat (count_completed (tasks s)))
                    (Z.of_nat (length (tasks s))))).
Proof.
  unfold list_tasks. destruct (tasks s) as [|t l] eqn:E; [by left | right].
  split; [done|]. rewrite <- sum_completed_count.
  split_and!.
  - rewrite shown_app, shown_task_lines. cbn [shown flat_map].
    by rewrite app_nil_r.
  - rewrite created_shown_app, created_shown_task_lines.
    cbn [created_shown flat_map]. by rewrite app_nil_r.
  - apply last_snoc.
Qed.

(** * Further properties: the menu loop *)

Lemma length_tasks_of_ids s s' :
  ids (tasks s') = ids (tasks s) → length (tasks s') = length (tasks s).
Proof.
  intros E. apply (f_equal length) in E. unfold ids in E.
  by rewrite !length_fmap in E.
Qed.

Lemma described_step (io_error : nat → bool) s o :
  from_menu o → described (tasks s) → described (tasks (step io_error s o)).
Proof.
  unfold described. intros Ho Hs.
  destruct o as [d now|n|n| |n d| |k]; cbn [step from_menu] in *.
  - rewrite tasks_add_task. apply Forall_app. split; [done|].
    by constructor.
  - destruct (find_task_cases n (tasks s))
      as [[_ Habs] | (l1 & t & l2 & _ & E & Hid & Habs)].
    + by rewrite complete_task_absent.
    + rewrite (complete_task_first io_error n s l1 t l2) by done.
      destruct (Task.completed t); [done|].
      cbn [print tasks]. rewrite tasks_save_tasks. cbn [with_tasks tasks].
      rewrite E in Hs. apply Forall_app in Hs as [H1 H2].
      apply Forall_cons in H2 as [Ht H2].
      apply Forall_app. split; [done|]. by constructor.
  - eapply Forall_sublist_of; [|exact Hs].
    by apply (tasks_step_removal io_error s (Delete n)).
  - eapply Forall_sublist_of; [|exact Hs].
    by apply (tasks_step_removal io_error s ClearCompleted).
  - destruct (find_task_cases n (tasks s))
      as [[_ Habs] | (l1 & t & l2 & _ & E & Hid & Habs)].
    + by rewrite edit_task_absent.
    + rewrite (edit_task_first io_error n d s l1 t l2) by done.
      cbn [print tasks]. rewrite tasks_save_tasks. cbn [with_tasks tasks].
      rewrite E in Hs. apply Forall_app in Hs as [H1 H2].
      apply Forall_cons in H2 as [Ht H2].
      apply Forall_app. split; [done|]. by constructor.
  - by rewrite tasks_show_statistics.
  - by rewrite tasks_search_tasks.
Qed.

Lemma described_run (io_error : nat → bool) ops s :
  Forall from_menu ops → described (tasks s) →
  described (tasks (run io_error ops s)).
Proof.
  intros Hops. revert s.
  induction Hops as [|o ops Ho _ IH]; intros s Hs; [done|].
  rewrite run_cons. apply IH. by apply described_step.
Qed.

(** A call that is not a removal never shortens the list. *)
Lemma length_step_other (io_error : nat → bool) s o :
  is_removal o = false →
  (length (tasks s) ≤ length (tasks (step io_error s o)))%nat.
Proof.
  intros Hrem. destruct o as [d now|n|n| |n d| |k]; try discriminate; cbn [step].
  - rewrite tasks_add_task, length_app. lia.
  - by rewrite (length_tasks_of_ids _ _ (ids_complete_task io_error n s)).
  - by rewrite (length_tasks_of_ids _ _ (ids_edit_task io_error n d s)).
  - by rewrite tasks_show_statistics.
  - by rewrite tasks_search_tasks.
Qed.

Section MainFacts.

Variable io_error : nat → bool.
Variable strip : string → string.
Variable parse_int : string → option Z.
Variable clock : nat → string.

Ltac iteration_cases H :=
  unfold iteration, reading, show_list, call, say in H;
  repeat case_match; simplify_eq; cbn [manager screen] in *.

(** One pass makes at most one call of the store, with a description or
    keyword that is not empty. *)
Lemma iteration_manager sh evs sh' evs' st :
  iteration io_error strip parse_int clock sh evs = (sh', evs', st) →
  ∃ ops, manager sh' = run io_error ops (manager sh) ∧
         Forall from_menu ops ∧ (length ops ≤ 1)%nat.
Proof.
  intros H. iteration_cases H;
    repeat match goal with
           | E : (_ =? _)%string = false |- _ => apply String.eqb_neq in E
           end;
    first
      [ exists []; split; [reflexivity|]; split; [constructor | cbn; lia]
      | eexists [Add _ _]; split; [reflexivity|]; split; [by repeat constructor | cbn; lia]
      | eexists [Complete _]; split; [reflexivity|]; split; [by repeat constructor | cbn; lia]
      | eexists [Delete _]; split; [reflexivity|]; split; [by repeat constructor | cbn; lia]
      | eexists [ClearCompleted]; split; [reflexivity|]; split; [by repeat constructor | cbn; lia]
      | eexists [Edit _ _]; split; [reflexivity|]; split; [by repeat constructor | cbn; lia]
      | eexists [ShowStatistics]; split; [reflexivity|]; split; [by repeat constructor | cbn; lia]
      | eexists [Search _]; split; [reflexivity|]; split; [by repeat constructor | cbn; lia] ].
Qed.

(** One pass reads a prefix of the input, at least one event unless the
    input is at its end. *)
Lemma iteration_consumes sh evs sh' evs' st :
  iteration io_error strip parse_int clock sh evs = (sh', evs', st) →
  ∃ used, evs = used ++ evs' ∧ (evs ≠ [] → used ≠ []).
Proof.
  intros H. iteration_cases H;
    first
      [ by exists []
      | by eexists [_]
      | by eexists [_; _]
      | by eexists [_; _; _] ].
Qed.

(** A pass that breaks the loop has just said goodbye and has not called
    the store. *)
Lemma iteration_stopped sh evs sh' evs' :
  iteration io_error strip parse_int clock sh evs = (sh', evs', Stopped) →
  manager sh' = manager sh ∧
  (last (screen sh') = Some Goodbye ∨ last (screen sh') = Some Exiting).
Proof.
  intros H. iteration_cases H;
    (split; [done|]); rewrite last_snoc; auto.
Qed.

(** A pass that shortens the task list has read, as its last line, a
    confirmation that is [y] after [strip] and [lower]. *)
Lemma iteration_removal_confirmed sh evs sh' evs' st :
  iteration io_error strip parse_int clock sh evs = (sh', evs', st) →
  (length (tasks (manager sh')) < length (tasks (manager sh)))%nat →
  ∃ used answer, evs = used ++ Line answer :: evs' ∧
                 lower (strip answer) = "y"%string.
Proof.
  intros H Hlt. iteration_cases H; try lia;
    repeat match goal with
           | E : (_ =? _)%string = true |- _ => apply String.eqb_eq in E
           end;
    try (first [ by eexists [], _ | by eexists [_], _ | by eexists [_; _], _ ]).
  all: exfalso; revert Hlt; apply Nat.le_ngt.
  all: first
    [ apply (length_step_other io_error _ (Add _ _)); reflexivity
    | apply (length_step_other io_error _ (Complete _)); reflexivity
    | apply (length_step_other io_error _ (Edit _ _)); reflexivity
    | apply (length_step_other io_error _ ShowStatistics); reflexivity
    | apply (length_step_other io_error _ (Search _)); reflexivity ].
Qed.

(** A pass breaks the loop only on Ctrl-C at one of its prompts, after
    which it says it is exiting, or on a menu choice that is [9] once
    stripped, after which it says goodbye. *)
Lemma iteration_stopped_input sh evs sh' evs' :
  iteration io_error strip parse_int clock sh evs = (sh', evs', Stopped) →
  (∃ used, evs = used ++ Interrupt :: evs' ∧
           last (screen sh') = Some Exiting) ∨
  (∃ choice, evs = Line choice :: evs' ∧ strip choice = "9"%string ∧
             last (screen sh') = Some Goodbye).
Proof.
  intros H. iteration_cases H;
    repeat match goal with
           | E : (_ =? _)%string = true |- _ => apply String.eqb_eq in E
           end;
    rewrite last_snoc;
    first
      [ right; eexists; by split_and!
      | left; by exists []
      | left; by eexists [_]
      | left; by eexists [_; _] ].
Qed.

End MainFacts.

Section MainLoopFacts.

Variable io_error : nat → bool.
Variable strip : string → string.
Variable parse_int : string → option Z.
Variable clock : nat → string.

Lemma main_loop_manager fuel sh evs :
  ∃ ops,
    manager (main_loop io_error strip parse_int clock fuel sh evs).1.1 =
      run io_error ops (manager sh) ∧
    Forall from_menu ops ∧ (length ops ≤ fuel)%nat.
Proof.
  revert sh evs. induction fuel as [|fuel IH]; intros sh evs.
  - exists []. split; [reflexivity|]. split; [constructor | cbn; lia].
  - cbn [main_loop].
    destruct (iteration io_error strip parse_int clock sh evs)
      as [[sh1 evs1] st] eqn:E.
    destruct (iteration_manager _ _ _ _ _ _ _ _ _ E) as (ops1 & Hm & Hops & Hlen).
    destruct st.
    + destruct (IH sh1 evs1) as (ops & Hm' & Hops' & Hlen').
      exists (ops1 ++ ops). rewrite Hm', Hm, run_app.
      split; [done|]. split; [by apply Forall_app|].
      rewrite length_app. lia.
    + exists ops1. cbn [fst]. split; [done|]. split; [done | lia].
Qed.

Lemma main_loop_stopped fuel sh evs :
  (main_loop io_error strip parse_int clock fuel sh evs).2 = Stopped →
  last (screen (main_loop io_error strip parse_int clock fuel sh evs).1.1) =
    Some Goodbye ∨
  last (screen (main_loop io_error strip parse_int clock fuel sh evs).1.1) =
    Some Exiting.
Proof.
  revert sh evs. induction fuel as [|fuel IH]; intros sh evs; [done|].
  cbn [main_loop].
  destruct (iteration io_error strip parse_int clock sh evs)
    as [[sh1 evs1] st] eqn:E.
  destruct st; [apply IH|]. intros _. cbn [fst].
  by destruct (iteration_stopped _ _ _ _ _ _ _ _ E).
Qed.

Lemma main_loop_stopped_input fuel sh evs :
  (main_loop io_error strip parse_int clock fuel sh evs).2 = Stopped →
  ∃ used,
    evs = used ++ (main_loop io_error strip parse_int clock fuel sh evs).1.2 ∧
    ((last used = Some Interrupt ∧
      last (screen (main_loop io_error strip parse_int clock fuel sh evs).1.1) =
        Some Exiting) ∨
     (∃ choice,
        last used = Some (Line choice) ∧ strip choice = "9"%string ∧
        last (screen (main_loop io_error strip parse_int clock fuel sh evs).1.1) =
          Some Goodbye)).
Proof.
  revert sh evs. induction fuel as [|fuel IH]; intros sh evs; [done|].
  cbn [main_loop].
  destruct (iteration io_error strip parse_int clock sh evs)
    as [[sh1 evs1] st] eqn:E.
  destruct st.
  - intros Hst. destruct (IH sh1 evs1 Hst) as (used2 & Hev & Hlast).
    destruct (iteration_consumes _ _ _ _ _ _ _ _ _ E) as (used1 & Hev1 & _).
    exists (used1 ++ used2). split.
    + rewrite <- app_assoc, <- Hev. exact Hev1.
    + rewrite last_app.
      destruct Hlast as [[Hl Hs] | (c & Hl & Hc & Hs)]; rewrite Hl.
      * by left.
      * right. by exists c.
  - intros _. cbn [fst snd].
    destruct (iteration_stopped_input _ _ _ _ _ _ _ _ E)
      as [(used & -> & Hs) | (c & -> & Hc & Hs)].
    + exists (used ++ [Interrupt]). split.
      * by rewrite <- app_assoc.
      * left. split; [apply last_snoc | done].
    + exists [Line c]. split; [done|]. right. by exists c.
Qed.

Lemma main_loop_input fuel sh evs :
  (length evs ≤ fuel)%nat →
  (main_loop io_error strip parse_int clock fuel sh evs).2 = Stopped ∨
  (main_loop io_error strip parse_int clock fuel sh evs).1.2 = [].
Proof.
  revert sh evs. induction fuel as [|fuel IH]; intros sh evs Hlen.
  - right. cbn. destruct evs; [done | cbn in Hlen; lia].
  - cbn [main_loop].
    destruct (iteration io_error strip parse_int clock sh evs)
      as [[sh1 evs1] st] eqn:E.
    destruct st; [|by left].
    apply IH.
    destruct (iteration_consumes _ _ _ _ _ _ _ _ _ E) as (used & -> & Hused).
    rewrite length_app in Hlen.
    destruct used as [|e used]; [|cbn [length] in Hlen; lia].
    destruct evs1 as [|e evs1]; [cbn; lia|].
    by destruct Hused.
Qed.

Lemma main_loop_end_of_input fuel sh :
  main_loop io_error strip parse_int clock fuel sh [] =
  ({| manager := manager sh;
      screen := screen sh ++ replicate fuel ErrorOccurred |}, [], Running).
Proof.
  revert sh. induction fuel as [|fuel IH]; intros sh.
  - cbn. rewrite app_nil_r. by destruct sh.
  - cbn [main_loop iteration reading]. rewrite IH. cbn [say manager screen].
    by rewrite <- app_assoc.
Qed.

End MainLoopFacts.

(** X14. At the end of input the loop does not end: [input] raises
    [EOFError], the handler for [Exception] prints an error and the loop
    goes on, so after any number of passes it is still running, with the
    manager untouched and one error line per pass. *)
Theorem main_loop_never_stops_at_end_of_input
    (io_error : nat → bool) (strip : string → string)
    (parse_int : string → option Z) (clock : nat → string)
    (fuel : nat) (sh : Shell) :
  main_loop io_error strip parse_int clock fuel sh [] =
  ({| manager := manager sh;
      screen := screen sh ++ replicate fuel ErrorOccurred |}, [], Running).
Proof. apply main_loop_end_of_input. Qed.

(** X15. Whatever is typed, the loop changes the manager only through the
    store calls of [run], at most one per pass, and never passes on an
    empty description or keyword; so if no task has an empty description
    before, none has one after. *)
Theorem main_loop_drives_store
    (io_error : nat → bool) (strip : string → string)
    (parse_int : string → option Z) (clock : nat → string)
    (fuel : nat) (sh : Shell) (evs : list Event) :
  (∃ ops,
     manager (main_loop io_error strip parse_int clock fuel sh evs).1.1 =
       run io_error ops (manager sh) ∧
     Forall from_menu ops ∧ (length ops ≤ fuel)%nat) ∧
  (described (tasks (manager sh)) →
   described
     (tasks (manager (main_loop io_error strip parse_int clock fuel sh evs).1.1))).
Proof.
  destruct (main_loop_manager io_error strip parse_int clock fuel sh evs)
    as (ops & Hm & Hops & Hlen).
  split; [by exists ops|].
  intros Hd. rewrite Hm. by apply described_run.
Qed.

Lemma main_loop_drives_store_witness :
  described
    (tasks (manager (main_loop io_ok strip_spaces decimal clock0 5 shell0
                       [Line "1"; Line "   "; Line "1"; Line " Buy milk ";
                        Line "6"; Line "1"; Line " "]).1.1)).
Proof.
  apply (proj2 (main_loop_drives_store io_ok strip_spaces decimal clock0 5 shell0
                  [Line "1"; Line "   "; Line "1"; Line " Buy milk ";
                   Line "6"; Line "1"; Line " "])).
  constructor.
Defined.

(** X16. With Ctrl-C arriving only at a prompt, the loop breaks only on
    what it has just read: Ctrl-C, after which it says it is exiting, or a
    line that is [9] once stripped, after which it says goodbye.  Nothing
    else that is typed, and no end of input, breaks it. *)
Theorem main_loop_stops_only_on_goodbye
    (io_error : nat → bool) (strip : string → string)
    (parse_int : string → option Z) (clock : nat → string)
    (fuel : nat) (sh : Shell) (evs : list Event) :
  (main_loop io_error strip parse_int clock fuel sh evs).2 = Stopped →
  ∃ used,
    evs = used ++ (main_loop io_error strip parse_int clock fuel sh evs).1.2 ∧
    ((last used = Some Interrupt ∧
      last (screen (main_loop io_error strip parse_int clock fuel sh evs).1.1) =
        Some Exiting) ∨
     (∃ choice,
        last used = Some (Line choice) ∧ strip choice = "9"%string ∧
        last (screen (main_loop io_error strip parse_int clock fuel sh evs).1.1) =
          Some Goodbye)).
Proof. apply main_loop_stopped_input. Qed.

Lemma main_loop_stops_only_on_goodbye_witness :
  ∃ used,
    [Line "2"; Line "4"; Interrupt; Line "1"] =
      used ++ (main_loop io_ok strip_spaces decimal clock0 5 shell0
                 [Line "2"; Line "4"; Interrupt; Line "1"]).1.2 ∧
    ((last used = Some Interrupt ∧
      last (screen (main_loop io_ok strip_spaces decimal clock0 5 shell0
                      [Line "2"; Line "4"; Interrupt; Line "1"]).1.1) =
        Some Exiting) ∨
     (∃ choice,
        last used = Some (Line choice) ∧ strip_spaces choice = "9"%string ∧
        last (screen (main_loop io_ok strip_spaces decimal clock0 5 shell0
                        [Line "2"; Line "4"; Interrupt; Line "1"]).1.1) =
          Some Goodbye)).
Proof.
  apply (main_loop_stops_only_on_goodbye io_ok strip_spaces decimal clock0 5
           shell0 [Line "2"; Line "4"; Interrupt; Line "1"]).
  reflexivity.
Defined.

(** X17. Every pass reads at least one event, so with as many passes as
    there are events the loop has either broken or reached the end of
    input. *)
Theorem main_loop_uses_up_input
    (io_error : nat → bool) (strip : string → string)
    (parse_int : string → option Z) (clock : nat → string)
    (fuel : nat) (sh : Shell) (evs : list Event) :
  (length evs ≤ fuel)%nat →
  (main_loop io_error strip parse_int clock fuel sh evs).2 = Stopped ∨
  (main_loop io_error strip parse_int clock fuel sh evs).1.2 = [].
Proof. apply main_loop_input. Qed.

Lemma main_loop_uses_up_input_witness :
  (main_loop io_ok strip_spaces decimal clock0 3 shell0
     [Line "1"; Line "a"; Line "7"]).2 = Stopped ∨
  (main_loop io_ok strip_spaces decimal clock0 3 shell0
     [Line "1"; Line "a"; Line "7"]).1.2 = [].
Proof.
  apply (main_loop_uses_up_input io_ok strip_spaces decimal clock0 3 shell0
           [Line "1"; Line "a"; Line "7"]).
  cbn. lia.
Defined.



(** X19. The menu removes tasks only on confirmation: a pass after which
    the task list is shorter has read, as its last line, an answer that is
    [y] once stripped and put in lower case. *)
Theorem removal_needs_confirmation
    (io_error : nat → bool) (strip : string → string)
    (parse_int : string → option Z) (clock : nat → string)
    (sh : Shell) (evs : list Event) :
  (length (tasks (manager (iteration io_error strip parse_int clock sh evs).1.1))
   < length (tasks (manager sh)))%nat →
  ∃ used answer,
    evs = used ++ Line answer ::
                  (iteration io_error strip parse_int clock sh evs).1.2 ∧
    lower (strip answer) = "y"%string.
Proof.
  destruct (iteration io_error strip parse_int clock sh evs)
    as [[sh1 evs1] st] eqn:E.
  cbn [fst snd]. by apply (iteration_removal_confirmed _ _ _ _ _ _ _ _ _ E).
Qed.

Lemma removal_needs_confirmation_witness :
  ∃ used answer,
    [Line "4"; Line " 1"; Line " Y "] =
      used ++ Line answer ::
        (iteration io_ok strip_spaces decimal clock0
           (call (add_task io_ok "a" t0) shell0)
           [Line "4"; Line " 1"; Line " Y "]).1.2 ∧
    lower (strip_spaces answer) = "y"%string.
Proof.
  apply (removal_needs_confirmation io_ok strip_spaces decimal clock0
           (call (add_task io_ok "a" t0) shell0)
           [Line "4"; Line " 1"; Line " Y "]).
  vm_compute. lia.
Defined.
